(** * The kbar store: action registry and publisher/subscriber engine

    A shallow embedding of [src/useStore.tsx].  JavaScript objects that the
    code shares and mutates (the action objects, the [actions] map of a
    snapshot, the subscribers) live in explicit heaps and are referred to by
    location, so that aliasing between a committed snapshot, a registered
    batch and the closure of [unregister] is visible.  Code that can throw
    runs in a small state-and-exception monad. *)

From stdpp Require Import gmap strings list fin_maps option.

Open Scope string_scope.
Open Scope list_scope.

(** ** JavaScript values and structural equality *)

(** Modelled from the spec: the derived values a selector can return.
    Numbers are integers here; a mapping is a list of key/value pairs whose
    keys are pairwise distinct in a well-formed value. *)
#[local] Unset Elimination Schemes.
Inductive JsValue : Type :=
  | JUndefined
  | JNull
  | JBool (b : bool)
  | JNum (n : Z)
  | JStr (s : string)
  | JArr (items : list JsValue)
  | JObj (fields : list (string * JsValue)).
#[local] Set Elimination Schemes.

Fixpoint assoc {A : Type} (k : string) (l : list (string * A)) : option A :=
  match l with
  | [] => None
  | (k', v) :: r => if decide (k = k') then Some v else assoc k r
  end.

Section forall2b.
Context {A B : Type} (f : A → B → bool).

(** Two sequences of the same length whose elements agree pairwise. *)
Fixpoint forall2b (xs : list A) (ys : list B) : bool :=
  match xs, ys with
  | [], [] => true
  | x :: xs', y :: ys' => f x y && forall2b xs' ys'
  | _, _ => false
  end.
End forall2b.

(** Modelled from the spec: [deepEqual] of the fast-equals package, "deep
    structural equality (sequences compared order-sensitively, mappings
    compared by key/value regardless of insertion order)". *)
Fixpoint deepEqual (a b : JsValue) {struct a} : bool :=
  match a, b with
  | JUndefined, JUndefined => true
  | JNull, JNull => true
  | JBool x, JBool y => bool_decide (x = y)
  | JNum x, JNum y => bool_decide (x = y)
  | JStr x, JStr y => bool_decide (x = y)
  | JArr xs, JArr ys => forall2b deepEqual xs ys
  | JObj fs, JObj gs =>
      bool_decide (length fs = length gs) &&
      forallb (λ kv, match assoc kv.1 gs with
                     | Some w => deepEqual kv.2 w
                     | None => false
                     end) fs
  | _, _ => false
  end.

(** The keys of every mapping inside the value are pairwise distinct, as
    they are in any JavaScript object. *)
Fixpoint wf_value (v : JsValue) : bool :=
  match v with
  | JArr xs => forallb wf_value xs
  | JObj fs => bool_decide (NoDup (fs.*1)) && forallb (λ kv, wf_value kv.2) fs
  | _ => true
  end.

(** Induction on values that reaches the elements of sequences and the
    fields of mappings. *)
Section JsValue_induction.
Variable P : JsValue → Prop.
Hypothesis Hundefined : P JUndefined.
Hypothesis Hnull : P JNull.
Hypothesis Hbool : ∀ b, P (JBool b).
Hypothesis Hnum : ∀ n, P (JNum n).
Hypothesis Hstr : ∀ s, P (JStr s).
Hypothesis Harr : ∀ xs, Forall P xs → P (JArr xs).
Hypothesis Hobj : ∀ fs, Forall (λ kv, P kv.2) fs → P (JObj fs).

Fixpoint JsValue_nested_ind (v : JsValue) : P v :=
  match v with
  | JUndefined => Hundefined
  | JNull => Hnull
  | JBool b => Hbool b
  | JNum n => Hnum n
  | JStr s => Hstr s
  | JArr xs =>
      Harr xs ((fix all (l : list JsValue) : Forall P l :=
                  match l with
                  | [] => Forall_nil P
                  | x :: r => Forall_cons P x r (JsValue_nested_ind x) (all r)
                  end) xs)
  | JObj fs =>
      Hobj fs ((fix all (l : list (string * JsValue)) : Forall (λ kv, P kv.2) l :=
                  match l with
                  | [] => Forall_nil _
                  | kv :: r => Forall_cons _ kv r (JsValue_nested_ind kv.2) (all r)
                  end) fs)
  end.
End JsValue_induction.

(** ** Exceptions and the state-and-exception monad *)

(** A thrown value: [new Error(message)], or anything a host callback
    throws. *)
Inductive exn : Type :=
  | Error (message : string)
  | Thrown (v : JsValue).

Inductive result (A : Type) : Type :=
  | Ok (a : A)
  | Throw (e : exn).
Arguments Ok {A} a.
Arguments Throw {A} e.

(** A computation over a mutable state [S]: writes made before a [throw]
    stay in the state. *)
Definition Eff (S A : Type) : Type := S → S * result A.

Definition ret {S A} (a : A) : Eff S A := λ s, (s, Ok a).

Definition bind {S A B} (m : Eff S A) (k : A → Eff S B) : Eff S B :=
  λ s, match m s with
       | (s', Ok a) => k a s'
       | (s', Throw e) => (s', Throw e)
       end.

Definition throw {S A} (e : exn) : Eff S A := λ s, (s, Throw e).

Definition gets {S A} (f : S → A) : Eff S A := λ s, (s, Ok (f s)).

Definition modify {S} (f : S → S) : Eff S unit := λ s, (f s, Ok tt).

Definition tryCatch {S A} (m : Eff S A) (handler : exn → Eff S A) : Eff S A :=
  λ s, match m s with
       | (s', Ok a) => (s', Ok a)
       | (s', Throw e) => handler e s'
       end.

Declare Scope eff_scope.
Delimit Scope eff_scope with eff.
Notation "'let*' x ':=' m 'in' k" := (bind m (λ x, k))
  (at level 10, x name, m at level 100, k at level 200) : eff_scope.
Notation "m ;;; k" := (bind m (λ _, k))
  (at level 100, right associativity) : eff_scope.
Open Scope eff_scope.

(** [Array.prototype.forEach]: the callback runs on each element in order;
    an exception leaving the callback ends the loop. *)
Fixpoint forEach {S A} (f : A → Eff S unit) (l : list A) : Eff S unit :=
  match l with
  | [] => ret tt
  | x :: r => f x ;;; forEach f r
  end.

(** ** Data model *)

Abbreviation loc := nat.

(** Modelled from the spec: [VisualState] of [types.ts], "enumeration
    {hidden, animatingIn, showing, animatingOut}". *)
Inductive VisualState : Type :=
  | animatingIn
  | showing
  | animatingOut
  | hidden.

Global Instance VisualState_eq_dec : EqDecision VisualState.
Proof. solve_decision. Defined.

(** Modelled from the spec: [Action] of [types.ts]: "identifier (unique),
    display payload (opaque to the core), optional parent (identifier
    reference), children (ordered sequence of identifiers)".  [parent] is
    [None] for [null] or [undefined]; [children] is [None] while the object
    has no such property.  The array held by [children] belongs to its
    object: the code makes it with [[]] or [filter] and hands it to nobody. *)
Record Action : Type := mkAction {
  id : string;
  name : string;
  parent : option string;
  children : option (list string)
}.

Definition set_children (c : option (list string)) (a : Action) : Action :=
  mkAction (id a) (name a) (parent a) c.

(** [ActionId | null | undefined]. *)
Inductive RootId : Type :=
  | RootNull
  | RootUndefined
  | RootAction (actionId : string).

(** Modelled from the spec: [KBarState] of [types.ts].  A snapshot object is
    never written after it is built, so it is a value; its [actions] field
    refers to a map object in the heap. *)
Record KBarState : Type := mkState {
  searchQuery : string;
  currentRootActionId : RootId;
  visualState : VisualState;
  actions : loc
}.

(** The heap: action objects, and [ActionTree] objects (maps from id to
    action object).  An [ActionTree] is a JavaScript object used as a map;
    ids are taken not to be names of members of [Object.prototype]. *)
Record Heap : Type := mkHeap {
  objs : gmap loc Action;
  trees : gmap loc (gmap string loc)
}.

Definition with_objs (f : gmap loc Action → gmap loc Action) (h : Heap) : Heap :=
  mkHeap (f (objs h)) (trees h).

Definition with_trees
    (f : gmap loc (gmap string loc) → gmap loc (gmap string loc))
    (h : Heap) : Heap :=
  mkHeap (objs h) (f (trees h)).

(** What the host holds: the heap and the committed snapshot
    ([currState.current]). *)
Record Store : Type := mkStore {
  heap : Heap;
  current : KBarState
}.

(** The [actions] map of snapshot [st] as the heap has it now. *)
Definition tree_of (h : Heap) (st : KBarState) : gmap string loc :=
  default ∅ (trees h !! actions st).


(** A string used as a condition: [undefined], [null] and the empty string
    are falsy. *)
Definition truthy (o : option string) : option string :=
  match o with
  | Some s => if decide (s = "") then None else Some s
  | None => None
  end.

(** [Array.prototype.includes] on ids. *)
Definition includes (x : string) (l : list string) : bool :=
  bool_decide (x ∈ l).

(** ** The state container *)

(** [setState(updater)]: the updater runs on the committed snapshot; its
    result is committed, unless it throws. *)
Definition setState (updater : KBarState → Eff Heap KBarState) (s : Store)
    : Store * result unit :=
  match updater (current s) (heap s) with
  | (h', Ok st') => (mkStore h' st', Ok tt)
  | (h', Throw e) => (mkStore h' (current s), Throw e)
  end.


(** The argument of [setVisualState]: a value or an updater function. *)
Inductive VisualUpdate : Type :=
  | VsValue (vs : VisualState)
  | VsFunction (cb : VisualState → VisualState).

Definition setVisualState (cb : VisualUpdate) : Store → Store * result unit :=
  setState (λ state,
    ret (mkState (searchQuery state) (currentRootActionId state)
           match cb with
           | VsFunction f => f (visualState state)
           | VsValue v => v
           end
           (actions state))).


Definition toggle_visualState (vs : VisualState) : VisualState :=
  if bool_decide (vs ∈ [animatingOut; hidden]) then animatingIn else animatingOut.

Definition toggle : Store → Store * result unit :=
  setState (λ state,
    ret (mkState (searchQuery state) (currentRootActionId state)
           (toggle_visualState (visualState state)) (actions state))).

(** ** The action registry *)

(** [actions.reduce((acc, curr) => { acc[curr.id] = curr; return acc }, {})] *)
Definition actionsByKey (h : Heap) (batch : list loc) : gmap string loc :=
  foldl (λ acc curr,
           match objs h !! curr with
           | Some a => <[id a := curr]> acc
           | None => acc
           end) ∅ batch.

Definition missing_parent (p : string) : exn :=
  Error ("Action of id " +:+ p +:+ " does not exist.").

(** [action.parent] used as a condition, on the object at [action]. *)
Definition parent_ref (h : Heap) (action : loc) : option string :=
  objs h !! action ≫= λ a, truthy (parent a).

(** [state.actions[p] || actionsByKey[p]]: an object is always truthy. *)
Definition resolve_parent (tree byKey : gmap string loc) (p : string) : option loc :=
  match tree !! p with
  | Some x => Some x
  | None => byKey !! p
  end.

(** The children of an object, empty when it has none. *)
Definition kids (o : Action) : list string := default [] (children o).

(** The body of the [forEach] callback of [registerActions]. *)
Definition link_action (tree byKey : gmap string loc) (action : loc) : Eff Heap unit :=
  let* p := gets (λ h, parent_ref h action) in
  match p with
  | None => ret tt
  | Some p =>
      match resolve_parent tree byKey p with
      | None => throw (missing_parent p)
      | Some parent_loc =>
          modify (with_objs (alter (λ o,
            match children o with
            | None => set_children (Some []) o
            | Some _ => o
            end) parent_loc)) ;;;
          let* dup := gets (λ h,
            match objs h !! action, objs h !! parent_loc with
            | Some a, Some o => includes (id a) (kids o)
            | _, _ => false
            end) in
          if (dup : bool) then ret tt
          else
            let* aid := gets (λ h, id <$> objs h !! action) in
            modify (with_objs (alter (λ o,
              set_children (Some (kids o ++ option_list aid)) o) parent_loc))
      end
  end.

(** The updater that [registerActions] passes to [setState]. *)
Definition register_updater (batch : list loc) (byKey : gmap string loc)
    (state : KBarState) : Eff Heap KBarState :=
  let* tree := gets (λ h, tree_of h state) in
  forEach (link_action tree byKey) batch ;;;
  let* t := gets (λ h, fresh (dom (trees h))) in
  modify (with_trees (insert t (tree ∪ byKey))) ;;;
  ret (mkState (searchQuery state) (currentRootActionId state)
         (visualState state) t).

Definition registerActions (batch : list loc) (s : Store) : Store * result unit :=
  setState (register_updater batch (actionsByKey (heap s) batch)) s.

(** [state.actions[actionId]?.parent] used as a condition; [t] is the
    location of [state.actions]. *)
Definition entry_parent (h : Heap) (t : loc) (actionId : string) : option string :=
  default ∅ (trees h !! t) !! actionId ≫= λ a,
  objs h !! a ≫= λ o,
  truthy (parent o).

(** The object [state.actions[p]] and its children, when both exist: the
    negation of [!parent?.children]. *)
Definition parent_children (h : Heap) (t : loc) (p : string)
    : option (loc * list string) :=
  default ∅ (trees h !! t) !! p ≫= λ a,
  objs h !! a ≫= λ o,
  children o ≫= λ k,
  Some (a, k).

(** The body of the [forEach] callback of [unregister]; [state_actions] is
    the location of [state.actions], which [allActions] aliases.  The
    [return] of the callback skips the [delete] as well. *)
Definition remove_action (state_actions : loc) (actionId : string) : Eff Heap unit :=
  let* p := gets (λ h, entry_parent h state_actions actionId) in
  let* skip :=
    match p with
    | Some p =>
        let* found := gets (λ h, parent_children h state_actions p) in
        match found with
        | None => ret true
        | Some (parent_loc, k) =>
            modify (with_objs (alter (set_children
              (Some (filter (λ child, child ≠ actionId) k))) parent_loc)) ;;;
            ret false
        end
    | None => ret false
    end in
  if (skip : bool) then ret tt
  else modify (with_trees (alter (delete actionId) state_actions)).

(** The updater of the [unregister] function returned for [batch]. *)
Definition unregister_updater (batch : list loc) (state : KBarState)
    : Eff Heap KBarState :=
  let* removeActionIds := gets (λ h, omap (λ a, id <$> objs h !! a) batch) in
  forEach (remove_action (actions state)) removeActionIds ;;;
  ret (mkState (searchQuery state) (currentRootActionId state)
         (visualState state) (actions state)).

Definition unregister (batch : list loc) (s : Store) : Store * result unit :=
  setState (unregister_updater batch) s.

(** ** Publisher and subscribers *)

(** A [Subscriber] object.  [collector] is the thunk
    [() => collector(this.getState())], a function of the store that
    [getState] reads; it and [onChange] are host code: they return or throw,
    and they do not subscribe or unsubscribe while a [notify] pass runs.
    [collected] is [undefined] until the first assignment. *)
Record Subscriber : Type := mkSubscriber {
  collected : JsValue;
  collector : Store → result JsValue;
  onChange : option (JsValue → result unit)
}.

Definition set_collected (v : JsValue) (s : Subscriber) : Subscriber :=
  mkSubscriber v (collector s) (onChange s).

(** What the engine does to the outside: calls of a subscriber's [onChange]
    and lines written with [console.warn]. *)
Inductive Event : Type :=
  | OnChange (subscriber : loc) (v : JsValue)
  | ConsoleWarn (error : exn).

(** The [Publisher]: its array of subscribers, the subscriber objects, and
    the events so far, oldest first. *)
Record Publisher : Type := mkPublisher {
  subscribers : list loc;
  subscriberObjs : gmap loc Subscriber;
  trace : list Event
}.

Definition emit (ev : Event) : Eff Publisher unit :=
  modify (λ P, mkPublisher (subscribers P) (subscriberObjs P) (trace P ++ [ev])).

Definition with_subscriber (f : Subscriber → Subscriber) (this : loc)
    : Eff Publisher unit :=
  modify (λ P, mkPublisher (subscribers P) (alter f this (subscriberObjs P)) (trace P)).

(** A call of host code. *)
Definition call {S A} (r : result A) : Eff S A := λ s, (s, r).

(** [Subscriber.collect], on the subscriber object at [this]. *)
Definition collect (w : Store) (this : loc) : Eff Publisher unit :=
  tryCatch
    (let* self := gets (λ P, subscriberObjs P !! this) in
     match self with
     | None => ret tt
     | Some self =>
         let* recollect := call (collector self w) in
         if negb (deepEqual recollect (collected self)) then
           with_subscriber (set_collected recollect) this ;;;
           match onChange self with
           | Some f =>
               let* v := gets (λ P,
                 default JUndefined (collected <$> subscriberObjs P !! this)) in
               emit (OnChange this v) ;;;
               call (f v)
           | None => ret tt
           end
         else ret tt
     end)
    (λ error, emit (ConsoleWarn error)).

(** [Publisher.notify], with [w] the store that [getState] returns. *)
Definition notify (w : Store) : Eff Publisher unit :=
  let* subs := gets subscribers in
  forEach (collect w) subs.

(** [Publisher.subscribe]; the location returned stands for the bound
    [unsubscribe] function. *)
Definition subscribe (collector : Store → result JsValue)
    (onChange : option (JsValue → result unit)) : Eff Publisher loc :=
  let* subscriber := gets (λ P, fresh (dom (subscriberObjs P))) in
  modify (λ P, mkPublisher (subscribers P ++ [subscriber])
                 (<[subscriber := mkSubscriber JUndefined collector onChange]>
                    (subscriberObjs P))
                 (trace P)) ;;;
  ret subscriber.

(** [indexOf] then [splice(index, 1)]: the first occurrence goes. *)
Fixpoint remove_first (x : loc) (l : list loc) : list loc :=
  match l with
  | [] => []
  | y :: r => if decide (x = y) then r else y :: remove_first x r
  end.

Definition unsubscribe (subscriber : loc) : Eff Publisher unit :=
  modify (λ P, mkPublisher (remove_first subscriber (subscribers P))
                 (subscriberObjs P) (trace P)).

(** The events of one delivery: the call of [onChange], and the warning if
    the call throws. *)
Definition deliver (this : loc) (v : JsValue) (f : JsValue → result unit)
    : list Event :=
  OnChange this v ::
  match f v with
  | Ok _ => []
  | Throw e => [ConsoleWarn e]
  end.

(** [ev] is a call of the [onChange] of the subscriber at [this]. *)
Definition is_delivery (this : loc) (ev : Event) : bool :=
  match ev with
  | OnChange l _ => bool_decide (l = this)
  | ConsoleWarn _ => false
  end.

(** Unfolds the monad down to state passing. *)
Ltac eff_unfold :=
  unfold bind, gets, modify, ret, throw, call, with_objs, with_trees; simpl.

(** ** Relations between heaps *)

(** [o'] is [o] with, at most, ids appended to its children. *)
Definition linked_from (o o' : Action) : Prop :=
  id o' = id o ∧ name o' = name o ∧ parent o' = parent o ∧
  kids o `prefix_of` kids o' ∧ (is_Some (children o) → is_Some (children o')).

(** [o'] is [o] with, at most, ids taken out of its children. *)
Definition unlinked_from (o o' : Action) : Prop :=
  id o' = id o ∧ name o' = name o ∧ parent o' = parent o ∧
  kids o' `sublist_of` kids o ∧ (is_Some (children o) ↔ is_Some (children o')).

(** What linking child [x] does to its parent object: [children] is
    created if absent, and [x] is pushed unless it is there already. *)
Definition add_child (x : string) (o : Action) : Action :=
  set_children (Some (if includes x (kids o) then kids o else kids o ++ [x])) o.


(** The two heaps hold objects at the same locations, related by [R]. *)
Definition objs_rel (R : Action → Action → Prop) (m m' : gmap loc Action) : Prop :=
  ∀ l, match m !! l, m' !! l with
       | Some o, Some o' => R o o'
       | None, None => True
       | _, _ => False
       end.



(** [unregister] has nothing left to do for id [x]: the map at [t] has no
    such entry, or the entry's parent is missing or has no children. *)
Definition settled (h : Heap) (t : loc) (x : string) : Prop :=
  default ∅ (trees h !! t) !! x = None ∨
  ∃ p, entry_parent h t x = Some p ∧ parent_children h t p = None.

(** ** Example data *)

Definition empty_store : Store :=
  mkStore (mkHeap ∅ {[0 := ∅]}) (mkState "" RootNull hidden 0).

(** A store whose committed map holds action "a"; "b" (child of "a"),
    "c" (child of an unknown "zz") and a second object with id "a" are
    objects the host is about to register. *)
Definition committed_store : Store :=
  mkStore
    (mkHeap
       (list_to_map
          [(1, mkAction "a" "Action a" None None);
           (2, mkAction "b" "Action b" (Some "a") None);
           (3, mkAction "c" "Action c" (Some "zz") None);
           (4, mkAction "a" "Another a" None None)])
       {[0 := {["a" := 1]}]})
    (mkState "" RootNull hidden 0).

(** Nothing is committed; the host is about to register "a" and its child
    "b". *)
Definition family_store : Store :=
  mkStore
    (mkHeap
       (list_to_map
          [(1, mkAction "a" "Action a" None None);
           (2, mkAction "b" "Action b" (Some "a") None)])
       {[0 := ∅]})
    (mkState "" RootNull hidden 0).


(** Three subscribers: a selector that throws, a callback that throws, and
    a well-behaved one. *)
Definition throwing_publisher : Publisher :=
  mkPublisher [0; 1; 2]
    (list_to_map
       [(0, mkSubscriber JUndefined (λ _, Throw (Error "selector")) None);
        (1, mkSubscriber JUndefined (λ _, Ok (JStr "a"))
              (Some (λ _, Throw (Error "callback"))));
        (2, mkSubscriber JNull (λ w, Ok (JStr (searchQuery (current w))))
              (Some (λ _, Ok tt)))])
    [].

(** ** Construction of the store *)



Definition default_animations : JsValue :=
  JObj [("enterMs", JNum 200); ("exitMs", JNum 100)].

(** [{ animations: { enterMs: 200, exitMs: 100 }, ...props.options }];
    [props.options] is [None] when the host left it out. *)
Definition optionsRef (props_options : option (gmap string JsValue))
    : gmap string JsValue :=
  default ∅ props_options ∪ {["animations" := default_animations]}.

(** [new Publisher(getState)]. *)
Definition new_Publisher : Publisher := mkPublisher [] ∅ [].

(** ** Invariants *)

(** Every subscriber of the list is a live object, listed once. *)
Definition publisher_wf (P : Publisher) : Prop :=
  NoDup (subscribers P) ∧
  ∀ l, l ∈ subscribers P → is_Some (subscriberObjs P !! l).

(** No children sequence lists an id twice. *)
Definition children_nodup (h : Heap) : Prop :=
  ∀ l o, objs h !! l = Some o → NoDup (kids o).

(** The ids of the objects of a batch: [actions.map((action) => action.id)]. *)
Definition batch_ids (h : Heap) (batch : list loc) : list string :=
  omap (λ a, id <$> objs h !! a) batch.

(** [ev] is a line written with [console.warn]. *)
Definition is_warning (ev : Event) : Prop :=
  match ev with
  | ConsoleWarn _ => True
  | OnChange _ _ => False
  end.

(** * Properties *)

(** ** Structural equality *)

Lemma assoc_NoDup {A} (l : list (string * A)) k v :
  NoDup (l.*1) → (k, v) ∈ l → assoc k l = Some v.
Proof.
  induction l as [|[k' v'] l IH]; simpl; intros Hnd Hin.
  - by apply elem_of_nil in Hin.
  - inversion Hnd as [|? ? Hk' Hnd']; subst.
    apply elem_of_cons in Hin as [Heq|Hin].
    + injection Heq as -> ->. by rewrite decide_True.
    + rewrite decide_False; [by apply IH|].
      intros ->. apply Hk'. apply list_elem_of_fmap. by exists (k', v).
Qed.

Lemma deepEqual_refl v : wf_value v = true → deepEqual v v = true.
Proof.
  induction v as [| |b|n|s|xs IH|fs IH] using JsValue_nested_ind; simpl; try done.
  - intros _. by apply bool_decide_eq_true.
  - intros _. by apply bool_decide_eq_true.
  - intros _. by apply bool_decide_eq_true.
  - induction IH as [|x xs Hx _ IHxs]; [done|]. simpl.
    intros [Hwx Hwxs]%andb_prop. rewrite Hx by done. simpl. by apply IHxs.
  - intros [Hnd%bool_decide_eq_true Hwf]%andb_prop.
    rewrite bool_decide_eq_true_2 by done. simpl.
    apply forallb_forall. intros [k v] Hin. simpl.
    rewrite (assoc_NoDup fs k v); [|done|by apply list_elem_of_In].
    rewrite List.Forall_forall in IH. apply (IH (k, v) Hin).
    rewrite forallb_forall in Hwf. apply (Hwf (k, v) Hin).
Qed.

Lemma deepEqual_undefined v : deepEqual v JUndefined = true ↔ v = JUndefined.
Proof. destruct v; simpl; split; congruence. Qed.

(** ** The subscriber *)

Lemma collect_dangling w this P :
  subscriberObjs P !! this = None → collect w this P = (P, Ok tt).
Proof.
  intros H. unfold collect, tryCatch, bind, gets. by rewrite H.
Qed.

Lemma collect_selector_throws w this P self e :
  subscriberObjs P !! this = Some self →
  collector self w = Throw e →
  collect w this P =
    (mkPublisher (subscribers P) (subscriberObjs P) (trace P ++ [ConsoleWarn e]),
     Ok tt).
Proof.
  intros H Hc. unfold collect, tryCatch, bind, gets, call. by rewrite H, Hc.
Qed.

Lemma collect_unchanged w this P self v :
  subscriberObjs P !! this = Some self →
  collector self w = Ok v →
  deepEqual v (collected self) = true →
  collect w this P = (P, Ok tt).
Proof.
  intros H Hc Heq. unfold collect, tryCatch, bind, gets, call.
  by rewrite H, Hc, Heq.
Qed.

Lemma collect_changed_no_callback w this P self v :
  subscriberObjs P !! this = Some self →
  collector self w = Ok v →
  deepEqual v (collected self) = false →
  onChange self = None →
  collect w this P =
    (mkPublisher (subscribers P)
       (<[this := set_collected v self]> (subscriberObjs P)) (trace P),
     Ok tt).
Proof.
  intros H Hc Heq Hcb.
  unfold collect, tryCatch, bind, gets, call, with_subscriber, modify, ret.
  rewrite H, Hc, Heq, Hcb. simpl. by erewrite alter_alt_Some.
Qed.

Lemma collect_changed w this P self v f :
  subscriberObjs P !! this = Some self →
  collector self w = Ok v →
  deepEqual v (collected self) = false →
  onChange self = Some f →
  collect w this P =
    (mkPublisher (subscribers P)
       (<[this := set_collected v self]> (subscriberObjs P))
       (trace P ++ deliver this v f),
     Ok tt).
Proof.
  intros H Hc Heq Hcb.
  unfold collect, tryCatch, bind, gets, call, with_subscriber, emit, modify, ret.
  rewrite H, Hc, Heq, Hcb. simpl.
  rewrite (alter_alt_Some _ _ _ _ H), lookup_insert_eq. simpl.
  unfold deliver. destruct (f v) as [[]|e]; simpl; by rewrite <- ?app_assoc.
Qed.

(** [collect] never lets an exception out. *)
Lemma collect_returns w this P : (collect w this P).2 = Ok tt.
Proof.
  destruct (subscriberObjs P !! this) as [self|] eqn:H.
  - destruct (collector self w) as [v|e] eqn:Hc.
    + destruct (deepEqual v (collected self)) eqn:Heq.
      * by erewrite collect_unchanged.
      * destruct (onChange self) as [f|] eqn:Hcb.
        -- by erewrite collect_changed.
        -- by erewrite collect_changed_no_callback.
    + by erewrite collect_selector_throws.
  - by rewrite collect_dangling.
Qed.

Lemma forEach_total {S A} (f : A → Eff S unit) (l : list A) (s : S) :
  (∀ x s', (f x s').2 = Ok tt) →
  forEach f l s = (foldl (λ s' x, (f x s').1) s l, Ok tt).
Proof.
  intros Hf. revert s. induction l as [|x l IH]; intros s; simpl; [done|].
  unfold bind. specialize (Hf x s). destruct (f x s) as [s' r]. simpl in *.
  subst r. apply IH.
Qed.

Lemma collect_subscribers w this P :
  subscribers (collect w this P).1 = subscribers P.
Proof.
  destruct (subscriberObjs P !! this) as [self|] eqn:H.
  - destruct (collector self w) as [v|e] eqn:Hc.
    + destruct (deepEqual v (collected self)) eqn:Heq.
      * by erewrite collect_unchanged.
      * destruct (onChange self) as [f|] eqn:Hcb.
        -- by erewrite collect_changed.
        -- by erewrite collect_changed_no_callback.
    + by erewrite collect_selector_throws.
  - by rewrite collect_dangling.
Qed.

Lemma collect_delivery_frame w this l P self v :
  subscriberObjs P !! this = Some self →
  collector self w = Ok v →
  deepEqual v (collected self) = true →
  subscriberObjs (collect w l P).1 !! this = Some self ∧
  List.filter (is_delivery this) (trace (collect w l P).1) =
    List.filter (is_delivery this) (trace P).
Proof.
  intros H Hc Heq. destruct (decide (l = this)) as [->|Hne].
  { by erewrite collect_unchanged. }
  assert (Hother : ∀ u, is_delivery this (OnChange l u) = false).
  { intros u. simpl. by apply bool_decide_eq_false. }
  destruct (subscriberObjs P !! l) as [other|] eqn:Hl.
  - destruct (collector other w) as [u|e] eqn:Hcu.
    + destruct (deepEqual u (collected other)) eqn:Hequ.
      * by erewrite collect_unchanged.
      * destruct (onChange other) as [g|] eqn:Hcb.
        -- erewrite collect_changed by done. simpl.
           rewrite lookup_insert_ne by done. split; [done|].
           rewrite List.filter_app. unfold deliver.
           destruct (g u); simpl; rewrite bool_decide_eq_false_2 by done;
             by rewrite app_nil_r.
        -- erewrite collect_changed_no_callback by done. simpl.
           by rewrite lookup_insert_ne.
    + erewrite collect_selector_throws by done. simpl. split; [done|].
      rewrite List.filter_app. simpl. by rewrite app_nil_r.
  - by rewrite collect_dangling.
Qed.

Lemma notify_delivery_frame w this P self v :
  subscriberObjs P !! this = Some self →
  collector self w = Ok v →
  deepEqual v (collected self) = true →
  subscriberObjs (notify w P).1 !! this = Some self ∧
  List.filter (is_delivery this) (trace (notify w P).1) =
    List.filter (is_delivery this) (trace P).
Proof.
  intros H Hc Heq. unfold notify, bind, gets.
  rewrite forEach_total by (intros; apply collect_returns). simpl.
  generalize (subscribers P) as ls. intros ls. revert P H.
  induction ls as [|l ls IH]; intros P H; simpl; [done|].
  destruct (collect_delivery_frame w this l P self v H Hc Heq) as [H1 H2].
  destruct (IH _ H1) as [H3 H4]. split; [done|]. by rewrite H4.
Qed.

(** C9: an exception thrown by a subscriber's selector or [onChange] during
    [notify] is caught in that subscriber's [collect] and written with
    [console.warn]; [notify] returns normally after running [collect] on
    every subscriber of its list, in order, and leaves the list as it was, so
    later [notify] calls run the same way. *)
Theorem notify_contains_subscriber_errors (w : Store) (P : Publisher) :
  notify w P =
    (foldl (λ P' this, (collect w this P').1) P (subscribers P), Ok tt) ∧
  subscribers (notify w P).1 = subscribers P ∧
  (∀ w', (notify w' (notify w P).1).2 = Ok tt) ∧
  (∀ this P' self e,
     subscriberObjs P' !! this = Some self →
     collector self w = Throw e →
     collect w this P' =
       (mkPublisher (subscribers P') (subscriberObjs P')
          (trace P' ++ [ConsoleWarn e]), Ok tt)) ∧
  (∀ this P' self v f e,
     subscriberObjs P' !! this = Some self →
     collector self w = Ok v →
     deepEqual v (collected self) = false →
     onChange self = Some f →
     f v = Throw e →
     collect w this P' =
       (mkPublisher (subscribers P')
          (<[this := set_collected v self]> (subscriberObjs P'))
          (trace P' ++ [OnChange this v; ConsoleWarn e]), Ok tt)).
Proof.
  assert (Hrun : ∀ w' P',
    notify w' P' =
      (foldl (λ P'' this, (collect w' this P'').1) P' (subscribers P'), Ok tt)).
  { intros w' P'. unfold notify, bind, gets.
    apply forEach_total. intros; apply collect_returns. }
  split; [apply Hrun|]. split; [|split; [|split]].
  - rewrite Hrun. simpl. generalize (subscribers P) at 1 as ls.
    intros ls. revert P. induction ls as [|l ls IH]; intros P; simpl; [done|].
    by rewrite IH, collect_subscribers.
  - intros w'. by rewrite Hrun.
  - intros. by eapply collect_selector_throws.
  - intros this P' self v f e H Hc Heq Hcb Hf.
    erewrite collect_changed by done. unfold deliver. by rewrite Hf.
Qed.

Lemma notify_contains_subscriber_errors_witness :
  notify empty_store throwing_publisher =
    (foldl (λ P' this, (collect empty_store this P').1) throwing_publisher
       [0; 1; 2], Ok tt) ∧
  trace (notify empty_store throwing_publisher).1 =
    [ConsoleWarn (Error "selector"); OnChange 1 (JStr "a");
     ConsoleWarn (Error "callback"); OnChange 2 (JStr "")].
Proof.
  split.
  - apply (notify_contains_subscriber_errors empty_store throwing_publisher).
  - vm_compute. reflexivity.
Defined.

(** C10: when [collect] finds a changed value and the [onChange] call
    throws, the new value is already stored as the last collected one; a
    later [collect] over the same state changes nothing, and no later
    [notify] cycle over the same state calls that subscriber's [onChange]
    again. *)
Theorem failed_delivery_not_retried
    (w : Store) (this : loc) (P : Publisher) (self : Subscriber)
    (v : JsValue) (f : JsValue → result unit) (e : exn) :
  subscriberObjs P !! this = Some self →
  collector self w = Ok v →
  wf_value v = true →
  deepEqual v (collected self) = false →
  onChange self = Some f →
  f v = Throw e →
  let P1 := (collect w this P).1 in
  collected <$> subscriberObjs P1 !! this = Some v ∧
  trace P1 = trace P ++ [OnChange this v; ConsoleWarn e] ∧
  collect w this P1 = (P1, Ok tt) ∧
  ∀ n, List.filter (is_delivery this)
         (trace (Nat.iter n (λ P', (notify w P').1) P1)) =
       List.filter (is_delivery this) (trace P1).
Proof.
  intros H Hc Hwf Heq Hcb Hf P1.
  assert (HP1 : P1 =
    mkPublisher (subscribers P)
      (<[this := set_collected v self]> (subscriberObjs P))
      (trace P ++ [OnChange this v; ConsoleWarn e])).
  { unfold P1. erewrite collect_changed by done. unfold deliver. by rewrite Hf. }
  assert (H1 : subscriberObjs P1 !! this = Some (set_collected v self)).
  { rewrite HP1. simpl. by rewrite lookup_insert_eq. }
  assert (Hsame : deepEqual v (collected (set_collected v self)) = true).
  { simpl. by apply deepEqual_refl. }
  split; [by rewrite H1|]. split; [by rewrite HP1|].
  split; [by eapply collect_unchanged|].
  intros n. induction n as [|n IH]; [done|]. simpl.
  assert (Hn : subscriberObjs (Nat.iter n (λ P', (notify w P').1) P1) !! this =
               Some (set_collected v self)).
  { clear IH. induction n as [|n IHn]; [done|]. simpl.
    by eapply notify_delivery_frame. }
  destruct (notify_delivery_frame w this _ _ v Hn Hc Hsame) as [_ ->].
  exact IH.
Qed.

Lemma failed_delivery_not_retried_witness :
  trace (collect empty_store 1 throwing_publisher).1 =
    [OnChange 1 (JStr "a"); ConsoleWarn (Error "callback")] ∧
  collect empty_store 1 (collect empty_store 1 throwing_publisher).1 =
    ((collect empty_store 1 throwing_publisher).1, Ok tt).
Proof.
  destruct (failed_delivery_not_retried empty_store 1 throwing_publisher
              (mkSubscriber JUndefined (λ _, Ok (JStr "a"))
                 (Some (λ _, Throw (Error "callback"))))
              (JStr "a") (λ _, Throw (Error "callback")) (Error "callback")
              eq_refl eq_refl eq_refl eq_refl eq_refl eq_refl)
    as (_ & Htrace & Hagain & _).
  split; [exact Htrace | exact Hagain].
Defined.

(** C2, as the code has it: [collected] starts as [undefined], so the first
    [collect] after [subscribe] calls [onChange] with the derived value
    whenever the selector returns a value other than [undefined] (and an
    [onChange] was given); that value is stored as the last collected one. *)
Theorem first_collect_delivers
    (w : Store) (P : Publisher) (sel : Store → result JsValue)
    (f : JsValue → result unit) (v : JsValue) :
  sel w = Ok v →
  v ≠ JUndefined →
  ∃ this P1 P2,
    subscribe sel (Some f) P = (P1, Ok this) ∧
    collect w this P1 = (P2, Ok tt) ∧
    trace P2 = trace P ++ deliver this v f ∧
    collected <$> subscriberObjs P2 !! this = Some v.
Proof.
  intros Hsel Hv.
  eexists _, _, _. split; [reflexivity|].
  set (this := fresh (dom (subscriberObjs P))).
  assert (Hne : deepEqual v JUndefined = false).
  { destruct (deepEqual v JUndefined) eqn:E; [|done].
    by apply deepEqual_undefined in E. }
  split.
  - eapply collect_changed; simpl.
    + apply lookup_insert_eq.
    + exact Hsel.
    + exact Hne.
    + reflexivity.
  - simpl. by rewrite lookup_insert_eq.
Qed.

Lemma first_collect_delivers_witness :
  ∃ this P1 P2,
    subscribe (λ w, Ok (JStr (searchQuery (current w)))) (Some (λ _, Ok tt))
      throwing_publisher = (P1, Ok this) ∧
    collect empty_store this P1 = (P2, Ok tt) ∧
    trace P2 = trace throwing_publisher ++ deliver this (JStr "") (λ _, Ok tt) ∧
    collected <$> subscriberObjs P2 !! this = Some (JStr "").
Proof.
  apply (first_collect_delivers empty_store throwing_publisher
           (λ w, Ok (JStr (searchQuery (current w)))) (λ _, Ok tt) (JStr "")).
  - reflexivity.
  - discriminate.
Defined.

(** C2 as stated fails: a selector that returns [undefined] is not
    delivered by the first [collect], since [collected] starts as
    [undefined] and the two are structurally equal. *)
Lemma first_collect_undefined_silent :
  ¬ (∀ (w : Store) (P : Publisher) (sel : Store → result JsValue)
       (f : JsValue → result unit) (v : JsValue) this P1 P2,
       sel w = Ok v →
       subscribe sel (Some f) P = (P1, Ok this) →
       collect w this P1 = (P2, Ok tt) →
       OnChange this v ∈ trace P2).
Proof.
  intros Hclaim.
  specialize (Hclaim empty_store (mkPublisher [] ∅ []) (λ _, Ok JUndefined)
                (λ _, Ok tt) JUndefined _ _ _ eq_refl eq_refl eq_refl).
  vm_compute in Hclaim. by apply elem_of_nil in Hclaim.
Qed.

(** ** Loops *)


Lemma forEach_invariant {S A} (I : S → Prop) (f : A → Eff S unit) (l : list A) (s : S) :
  (∀ x s', I s' → I (f x s').1) → I s → I (forEach f l s).1.
Proof.
  intros Hf. revert s. induction l as [|x l IH]; intros s Hs; simpl; [done|].
  unfold bind. specialize (Hf x s Hs). destruct (f x s) as [s' [[]|e]]; simpl in *.
  - by apply IH.
  - done.
Qed.

(** ** Heap relations *)

Global Instance linked_from_preorder : PreOrder linked_from.
Proof.
  split.
  - intros o. unfold linked_from. by repeat split.
  - intros o1 o2 o3 (?&?&?&?&?) (?&?&?&?&?). unfold linked_from.
    repeat split; try congruence; [by etrans|auto].
Qed.

Global Instance unlinked_from_preorder : PreOrder unlinked_from.
Proof.
  split.
  - intros o. unfold unlinked_from. by repeat split.
  - intros o1 o2 o3 (?&?&?&?&Ha) (?&?&?&?&Hb). unfold unlinked_from.
    repeat split; try congruence; [by etrans| |]; intros.
    + by apply Hb, Ha.
    + by apply Ha, Hb.
Qed.

Global Instance objs_rel_preorder R `{!PreOrder R} : PreOrder (objs_rel R).
Proof.
  split.
  - intros m l. by destruct (m !! l).
  - intros m1 m2 m3 H12 H23 l. specialize (H12 l). specialize (H23 l).
    destruct (m1 !! l), (m2 !! l), (m3 !! l); try done. by etrans.
Qed.

Lemma objs_rel_alter R `{!PreOrder R} (f : Action → Action) l (m : gmap loc Action) :
  (∀ o, m !! l = Some o → R o (f o)) → objs_rel R m (alter f l m).
Proof.
  intros Hf l'. rewrite lookup_alter. case_decide as Hl; [subst l'|].
  - destruct (m !! l) as [o|] eqn:E; simpl; [by apply Hf|done].
  - by destruct (m !! l').
Qed.

Lemma objs_rel_lookup R m m' l o :
  objs_rel R m m' → m !! l = Some o → ∃ o', m' !! l = Some o' ∧ R o o'.
Proof.
  intros H E. specialize (H l). rewrite E in H.
  destruct (m' !! l) as [o'|]; [by exists o'|done].
Qed.

Lemma objs_rel_lookup_None R m m' l :
  objs_rel R m m' → m !! l = None → m' !! l = None.
Proof.
  intros H E. specialize (H l). rewrite E in H. by destruct (m' !! l).
Qed.

(** ** Linking in [registerActions] *)



Lemma link_action_unresolved tree byKey a h p :
  parent_ref h a = Some p →
  resolve_parent tree byKey p = None →
  link_action tree byKey a h = (h, Throw (missing_parent p)).
Proof.
  intros Hp Hr. unfold link_action. eff_unfold. by rewrite Hp, Hr.
Qed.

Lemma link_action_no_parent tree byKey a h :
  parent_ref h a = None → link_action tree byKey a h = (h, Ok tt).
Proof.
  intros Hp. unfold link_action. eff_unfold. by rewrite Hp.
Qed.


Lemma link_action_trees tree byKey a h :
  trees (link_action tree byKey a h).1 = trees h.
Proof.
  unfold link_action. eff_unfold.
  destruct (parent_ref h a) as [p|]; [|done].
  destruct (resolve_parent tree byKey p) as [pl|]; [|done].
  simpl. by match goal with |- context [if ?b then _ else _] => destruct b end.
Qed.

Lemma link_action_linked tree byKey a h :
  objs_rel linked_from (objs h) (objs (link_action tree byKey a h).1).
Proof.
  unfold link_action. eff_unfold.
  destruct (parent_ref h a) as [p|]; [|done].
  destruct (resolve_parent tree byKey p) as [pl|]; [|done]. simpl.
  assert (H1 : objs_rel linked_from (objs h)
    (alter (λ o, match children o with
                 | Some _ => o
                 | None => set_children (Some []) o
                 end) pl (objs h))).
  { apply objs_rel_alter; [apply _|]. intros o _.
    destruct (children o) eqn:E; [done|].
    unfold linked_from, kids. simpl. rewrite E. simpl.
    repeat split; [by apply prefix_nil|eauto]. }
  match goal with |- context [if ?b then _ else _] => destruct b end; simpl;
    [done|].
  etrans; [exact H1|]. apply objs_rel_alter; [apply _|]. intros o _.
  unfold linked_from, kids. simpl. repeat split; [by apply prefix_app_r|eauto].
Qed.

Lemma link_all_frame tree byKey batch h :
  trees (forEach (link_action tree byKey) batch h).1 = trees h ∧
  objs_rel linked_from (objs h) (objs (forEach (link_action tree byKey) batch h).1).
Proof.
  apply (forEach_invariant
           (λ h', trees h' = trees h ∧ objs_rel linked_from (objs h) (objs h'))).
  - intros a h' [Ht Ho]. split.
    + by rewrite link_action_trees.
    + etrans; [exact Ho|]. apply link_action_linked.
  - done.
Qed.








(** ** A successful [registerActions] *)

Lemma actionsByKey_lookup h batch k a :
  actionsByKey h batch !! k = Some a →
  a ∈ batch ∧ ∃ o, objs h !! a = Some o ∧ id o = k.
Proof.
  unfold actionsByKey.
  assert (Hgen : ∀ acc : gmap string loc,
    foldl (λ acc curr, match objs h !! curr with
                       | Some o => <[id o := curr]> acc
                       | None => acc
                       end) acc batch !! k = Some a →
    acc !! k = Some a ∨ (a ∈ batch ∧ ∃ o, objs h !! a = Some o ∧ id o = k)).
  { induction batch as [|x batch IH]; intros acc; simpl; [by left|].
    intros H. destruct (IH _ H) as [Hacc|(Hin & Ho)].
    - destruct (objs h !! x) as [o|] eqn:Hx; [|by left].
      destruct (decide (id o = k)) as [<-|Hne].
      + rewrite lookup_insert_eq in Hacc. injection Hacc as ->.
        right. split; [by left|by exists o].
      + rewrite lookup_insert_ne in Hacc by done. by left.
    - right. split; [by right|done]. }
  intros H. destruct (Hgen ∅ H) as [Hempty|]; [|done].
  by rewrite lookup_empty in Hempty.
Qed.

Lemma registerActions_ok batch s s' :
  registerActions batch s = (s', Ok tt) →
  let tree := tree_of (heap s) (current s) in
  let byKey := actionsByKey (heap s) batch in
  let linked := forEach (link_action tree byKey) batch (heap s) in
  let t := fresh (dom (trees (heap s))) in
  linked.2 = Ok tt ∧
  s' = mkStore (with_trees (insert t (tree ∪ byKey)) linked.1)
         (mkState (searchQuery (current s)) (currentRootActionId (current s))
            (visualState (current s)) t).
Proof.
  intros H tree byKey linked t.
  unfold registerActions, setState, register_updater in H. revert H. eff_unfold.
  fold tree byKey linked.
  destruct (link_all_frame tree byKey batch (heap s)) as [Htrees _].
  fold linked in Htrees.
  destruct linked as [h' [[]|e]]; simpl in *; [|done].
  rewrite Htrees. fold t. by intros [= <-].
Qed.

Lemma registerActions_tree batch s s' :
  registerActions batch s = (s', Ok tt) →
  actions (current s') = fresh (dom (trees (heap s))) ∧
  trees (heap s') =
    <[fresh (dom (trees (heap s))) :=
        tree_of (heap s) (current s) ∪ actionsByKey (heap s) batch]>
      (trees (heap s)) ∧
  tree_of (heap s') (current s') =
    tree_of (heap s) (current s) ∪ actionsByKey (heap s) batch ∧
  objs_rel linked_from (objs (heap s)) (objs (heap s')).
Proof.
  intros H. destruct (registerActions_ok batch s s' H) as [_ ->].
  destruct (link_all_frame (tree_of (heap s) (current s))
              (actionsByKey (heap s) batch) batch (heap s)) as [Htrees Hrel].
  simpl. rewrite Htrees. repeat split; [|done].
  unfold tree_of at 1. simpl. by rewrite lookup_insert_eq.
Qed.

(** ** What linking does to the parent *)

Lemma set_children_id o k : children o = Some k → set_children (Some k) o = o.
Proof. destruct o as [i n p c]. simpl. by intros ->. Qed.

Lemma parent_ref_Some h a p :
  parent_ref h a = Some p ↔ ∃ o, objs h !! a = Some o ∧ truthy (parent o) = Some p.
Proof.
  unfold parent_ref. destruct (objs h !! a) as [o|]; simpl.
  - split; [by exists o|by intros (? & [= <-] & ?)].
  - split; [done|by intros (? & [=] & _)].
Qed.

Lemma link_action_spec tree byKey a h ao p pl :
  objs h !! a = Some ao →
  truthy (parent ao) = Some p →
  resolve_parent tree byKey p = Some pl →
  link_action tree byKey a h =
    (with_objs (alter (add_child (id ao)) pl) h, Ok tt).
Proof.
  intros Ha Hp Hr.
  assert (Hpr : parent_ref h a = Some p) by (apply parent_ref_Some; eauto).
  unfold link_action. eff_unfold. rewrite Hpr, Hr. simpl.
  set (init := λ o : Action,
         match children o with
         | Some _ => o
         | None => set_children (Some []) o
         end).
  assert (Hinit : ∀ o, id (init o) = id o ∧ kids (init o) = kids o ∧
                       children (init o) = Some (kids o)).
  { intros o. unfold init, kids. by destruct (children o) eqn:E; simpl; rewrite ?E. }
  assert (Hida : ∀ o', alter init pl (objs h) !! a = Some o' → id o' = id ao).
  { intros o'. rewrite lookup_alter. case_decide as E; [subst pl|]; rewrite Ha; simpl.
    - intros [= <-]. apply Hinit.
    - by intros [= <-]. }
  destruct (alter init pl (objs h) !! a) as [ao'|] eqn:Ha'.
  2: { rewrite lookup_alter in Ha'. case_decide as E; [subst pl|];
       by rewrite Ha in Ha'. }
  rewrite (Hida ao' eq_refl).
  rewrite lookup_alter, decide_True by done.
  destruct (objs h !! pl) as [po|] eqn:Hpl; simpl.
  - destruct (Hinit po) as (_ & Hk & Hc). rewrite Hk.
    unfold with_objs.
    destruct (includes (id ao) (kids po)) eqn:Hdup; simpl.
    + do 2 f_equal. apply alter_ext. intros o Ho. assert (o = po) as -> by congruence.
      unfold add_child. rewrite Hdup.
      unfold init, kids. destruct (children po) eqn:E; simpl; [|done].
      by rewrite set_children_id.
    + rewrite Ha'. simpl. rewrite (Hida ao' eq_refl).
      do 2 f_equal. rewrite alter_alter_eq. apply alter_ext.
      intros o Ho. assert (o = po) as -> by congruence. simpl.
      unfold add_child. rewrite Hdup, Hk. unfold set_children, init.
      by destruct (children po).
  - rewrite Ha'. simpl. unfold with_objs. do 2 f_equal.
    by rewrite !(alter_id' _ _ _ Hpl).
Qed.

Lemma includes_elem x l : includes x l = true ↔ x ∈ l.
Proof. unfold includes. apply bool_decide_eq_true. Qed.




Lemma add_child_linked x o : linked_from o (add_child x o).
Proof.
  unfold linked_from, add_child. simpl. repeat split; [|eauto].
  unfold kids at 2. simpl. destruct (includes x (kids o)); [done|].
  by apply prefix_app_r.
Qed.



Lemma link_action_cases tree byKey a h :
  (parent_ref h a = None ∧ link_action tree byKey a h = (h, Ok tt)) ∨
  (∃ p, parent_ref h a = Some p ∧ resolve_parent tree byKey p = None ∧
        link_action tree byKey a h = (h, Throw (missing_parent p))) ∨
  (∃ ao p pl,
     objs h !! a = Some ao ∧ truthy (parent ao) = Some p ∧
     resolve_parent tree byKey p = Some pl ∧
     link_action tree byKey a h =
       (with_objs (alter (add_child (id ao)) pl) h, Ok tt)).
Proof.
  destruct (parent_ref h a) as [p|] eqn:Hp.
  - right. destruct (resolve_parent tree byKey p) as [pl|] eqn:Hr.
    + right. apply parent_ref_Some in Hp as (ao & Ha & Hpa).
      exists ao, p, pl. repeat split; try done. by eapply link_action_spec.
    + left. exists p. repeat split; try done. by apply link_action_unresolved.
  - left. split; [done|]. by apply link_action_no_parent.
Qed.


(** ** Registering the same batch again *)

Lemma registerActions_unfold batch s :
  registerActions batch s =
    let tree := tree_of (heap s) (current s) in
    match forEach (link_action tree (actionsByKey (heap s) batch)) batch (heap s) with
    | (h', Ok _) =>
        (mkStore
           (with_trees (insert (fresh (dom (trees h')))
                          (tree ∪ actionsByKey (heap s) batch)) h')
           (mkState (searchQuery (current s)) (currentRootActionId (current s))
              (visualState (current s)) (fresh (dom (trees h')))),
         Ok tt)
    | (h', Throw e) => (mkStore h' (current s), Throw e)
    end.
Proof.
  unfold registerActions, setState, register_updater. eff_unfold.
  by destruct (forEach _ batch (heap s)) as [h' [[]|e]].
Qed.

Lemma forEach_fixed {S A} (f : A → Eff S unit) (l : list A) (s : S) :
  (∀ x, x ∈ l → f x s = (s, Ok tt)) → forEach f l s = (s, Ok tt).
Proof.
  induction l as [|x l IH]; intros Hf; simpl; [done|].
  unfold bind. rewrite Hf by (by left). apply IH. intros y Hy. apply Hf. by right.
Qed.





(** ** The merge of [registerActions] *)

(** C5: when [registerActions] succeeds, an id that is both in the batch
    and in the committed map keeps the committed entry: the new map refers
    to the same object, whose id, payload and parent are as before and
    whose children were at most extended by linking; only ids that were not
    in the map get an entry, the batch's own. *)
Theorem register_existing_entry_wins (batch : list loc) (s s' : Store) :
  registerActions batch s = (s', Ok tt) →
  let old := tree_of (heap s) (current s) in
  let new := tree_of (heap s') (current s') in
  (∀ k a, old !! k = Some a →
     new !! k = Some a ∧
     match objs (heap s) !! a, objs (heap s') !! a with
     | Some o, Some o' => linked_from o o'
     | None, None => True
     | _, _ => False
     end) ∧
  (∀ k a, old !! k = None → new !! k = Some a →
     actionsByKey (heap s) batch !! k = Some a ∧ a ∈ batch ∧
     ∃ o, objs (heap s) !! a = Some o ∧ id o = k) ∧
  (∀ k, old !! k = None → actionsByKey (heap s) batch !! k = None →
     new !! k = None).
Proof.
  intros Hreg old new.
  destruct (registerActions_tree batch s s' Hreg) as (_ & _ & Hnew & Hrel).
  fold old new in Hnew. rewrite Hnew.
  split; [|split].
  - intros k a Hk. split; [|apply Hrel].
    by apply lookup_union_Some_l.
  - intros k a Hk Hn. rewrite lookup_union_r in Hn by done.
    split; [done|]. by apply actionsByKey_lookup.
  - intros k Hk Hb. by rewrite lookup_union_r.
Qed.

Lemma register_existing_entry_wins_witness :
  ∃ s',
    registerActions [4; 2] committed_store = (s', Ok tt) ∧
    tree_of (heap s') (current s') !! "a" = Some 1 ∧
    tree_of (heap s') (current s') !! "b" = Some 2 ∧
    name <$> objs (heap s') !! 1 = Some "Action a".
Proof.
  eexists. split; [vm_compute; reflexivity|].
  destruct (register_existing_entry_wins [4; 2] committed_store _ eq_refl)
    as (Hold & _ & _).
  destruct (Hold "a" 1 eq_refl) as [Ha _].
  split; [exact Ha|]. split; vm_compute; reflexivity.
Defined.




(** ** Unregistering *)

Lemma remove_action_cases t x h :
  (∃ p, entry_parent h t x = Some p ∧ parent_children h t p = None ∧
        remove_action t x h = (h, Ok tt)) ∨
  (∃ p pl k, entry_parent h t x = Some p ∧
        parent_children h t p = Some (pl, k) ∧
        remove_action t x h =
          (mkHeap (alter (set_children (Some (filter (λ y, y ≠ x) k))) pl (objs h))
                  (alter (delete x) t (trees h)), Ok tt)) ∨
  (entry_parent h t x = None ∧
   remove_action t x h = (with_trees (alter (delete x) t) h, Ok tt)).
Proof.
  unfold remove_action. eff_unfold.
  destruct (entry_parent h t x) as [p|] eqn:Hp; [|by right; right].
  destruct (parent_children h t p) as [[pl k]|] eqn:Hk.
  - right. left. by exists p, pl, k.
  - left. by exists p.
Qed.

Lemma remove_action_returns t x h : (remove_action t x h).2 = Ok tt.
Proof.
  destruct (remove_action_cases t x h)
    as [(p & _ & _ & ->)|[(p & pl & k & _ & _ & ->)|[_ ->]]]; done.
Qed.

Lemma parent_children_Some h t p pl k :
  parent_children h t p = Some (pl, k) ↔
  default ∅ (trees h !! t) !! p = Some pl ∧
  ∃ o, objs h !! pl = Some o ∧ children o = Some k.
Proof.
  unfold parent_children.
  destruct (default ∅ (trees h !! t) !! p) as [a|]; simpl;
    [|split; [done|by intros ([=] & _)]].
  destruct (objs h !! a) as [o|] eqn:Ho; simpl.
  - destruct (children o) as [k'|] eqn:Hc; simpl.
    + split.
      * intros [= <- <-]. eauto.
      * intros ([= <-] & o' & Ho' & Hc'). congruence.
    + split; [done|]. intros ([= <-] & o' & Ho' & Hc'). congruence.
  - split; [done|]. intros ([= <-] & o' & Ho' & _). congruence.
Qed.

Lemma remove_action_unlinked t x h :
  objs_rel unlinked_from (objs h) (objs (remove_action t x h).1).
Proof.
  destruct (remove_action_cases t x h)
    as [(p & _ & _ & ->)|[(p & pl & k & _ & Hk & ->)|[_ ->]]]; simpl; try done.
  apply parent_children_Some in Hk as (_ & o & Ho & Hc).
  apply objs_rel_alter; [apply _|]. intros o' Ho'.
  assert (o' = o) as -> by congruence.
  unfold unlinked_from, kids. simpl. rewrite Hc. simpl.
  repeat split; eauto. apply sublist_filter.
Qed.

Lemma remove_action_trees t x h :
  trees (remove_action t x h).1 = trees h ∨
  trees (remove_action t x h).1 = alter (delete x) t (trees h).
Proof.
  destruct (remove_action_cases t x h)
    as [(p & _ & _ & ->)|[(p & pl & k & _ & _ & ->)|[_ ->]]]; simpl; auto.
Qed.

Lemma tree_alter_delete (trs : gmap loc (gmap string loc)) t x y :
  default ∅ (alter (delete x) t trs !! t) !! y =
    if decide (x = y) then None else default ∅ (trs !! t) !! y.
Proof.
  rewrite lookup_alter, decide_True by done.
  destruct (trs !! t) as [m|]; simpl.
  - rewrite lookup_delete. by case_decide.
  - rewrite lookup_empty. by case_decide.
Qed.

Lemma settled_fixed h t x : settled h t x → remove_action t x h = (h, Ok tt).
Proof.
  intros [Hgone|(p & Hp & Hk)].
  - destruct (remove_action_cases t x h)
      as [(q & _ & _ & ->)|[(q & pl & k & Hq & _ & _)|[_ ->]]]; [done| |].
    + unfold entry_parent in Hq. by rewrite Hgone in Hq.
    + f_equal. destruct h as [os trs]. unfold with_trees. simpl in *. f_equal.
      apply alter_id. intros m Hm. rewrite Hm in Hgone. by apply delete_id.
  - destruct (remove_action_cases t x h)
      as [(q & _ & _ & ->)|[(q & pl & k & Hq & Hk' & _)|[Hq _]]];
      [done|congruence..].
Qed.

Lemma remove_action_settles t x h : settled (remove_action t x h).1 t x.
Proof.
  destruct (remove_action_cases t x h)
    as [(p & Hp & Hk & ->)|[(p & pl & k & _ & _ & ->)|[_ ->]]]; simpl.
  - right. by exists p.
  - left. simpl. by rewrite tree_alter_delete, decide_True.
  - left. simpl. by rewrite tree_alter_delete, decide_True.
Qed.

Lemma entry_parent_unlinked h h' t x :
  objs_rel unlinked_from (objs h) (objs h') →
  default ∅ (trees h' !! t) !! x = default ∅ (trees h !! t) !! x →
  entry_parent h' t x = entry_parent h t x.
Proof.
  intros Hrel Ht. unfold entry_parent. rewrite Ht.
  destruct (default ∅ (trees h !! t) !! x) as [a|]; simpl; [|done].
  specialize (Hrel a).
  destruct (objs h !! a) as [o|], (objs h' !! a) as [o'|]; try done.
  destruct Hrel as (_ & _ & Hp & _). simpl. by rewrite Hp.
Qed.

Lemma parent_children_None_unlinked h h' t p :
  objs_rel unlinked_from (objs h) (objs h') →
  (default ∅ (trees h' !! t) !! p = default ∅ (trees h !! t) !! p ∨
   default ∅ (trees h' !! t) !! p = None) →
  parent_children h t p = None →
  parent_children h' t p = None.
Proof.
  intros Hrel [Ht|Ht] Hk; unfold parent_children in *; rewrite Ht; [|done].
  destruct (default ∅ (trees h !! t) !! p) as [a|]; simpl in *; [|done].
  specialize (Hrel a).
  destruct (objs h !! a) as [o|], (objs h' !! a) as [o'|]; try done.
  destruct Hrel as (_ & _ & _ & _ & Hsome). simpl in *.
  destruct (children o) as [k|] eqn:Hc; [done|].
  destruct (children o') as [k'|] eqn:Hc'; [|done].
  destruct (proj2 Hsome) as [? [=]]. by eexists.
Qed.

Lemma remove_action_tree_lookup t x h y :
  default ∅ (trees (remove_action t x h).1 !! t) !! y =
    default ∅ (trees h !! t) !! y ∨
  default ∅ (trees (remove_action t x h).1 !! t) !! y = None.
Proof.
  destruct (remove_action_trees t x h) as [->| ->]; [by left|].
  rewrite tree_alter_delete. case_decide; auto.
Qed.

Lemma remove_action_settled t x y h :
  settled h t x → settled (remove_action t y h).1 t x.
Proof.
  intros Hx.
  pose proof (remove_action_unlinked t y h) as Hrel.
  destruct (remove_action_tree_lookup t y h x) as [Hsame|Hnone]; [|by left].
  destruct Hx as [Hgone|(p & Hp & Hk)]; [left; congruence|].
  right. exists p. split.
  - by rewrite (entry_parent_unlinked h _ t x Hrel Hsame).
  - eapply parent_children_None_unlinked; [exact Hrel| |exact Hk].
    apply remove_action_tree_lookup.
Qed.

Lemma remove_all_settles t ids h x :
  x ∈ ids → settled (forEach (remove_action t) ids h).1 t x.
Proof.
  revert h. induction ids as [|y ids IH]; intros h Hin.
  - by apply elem_of_nil in Hin.
  - simpl. unfold bind.
    pose proof (remove_action_returns t y h) as Hok.
    pose proof (remove_action_settles t y h) as Hy.
    destruct (remove_action t y h) as [h' r]. simpl in *. subst r.
    apply elem_of_cons in Hin as [->|Hin].
    + apply (forEach_invariant (λ h'', settled h'' t y)); [|done].
      intros z h'' Hz. by apply remove_action_settled.
    + by apply IH.
Qed.

Lemma remove_all_returns t ids h : (forEach (remove_action t) ids h).2 = Ok tt.
Proof.
  rewrite forEach_total; [done|]. intros; apply remove_action_returns.
Qed.

Lemma remove_all_unlinked t ids h :
  objs_rel unlinked_from (objs h) (objs (forEach (remove_action t) ids h).1).
Proof.
  apply (forEach_invariant (λ h', objs_rel unlinked_from (objs h) (objs h')));
    [|done].
  intros x h' Hrel. etrans; [exact Hrel|]. apply remove_action_unlinked.
Qed.

Lemma batch_ids_unlinked h h' (batch : list loc) :
  objs_rel unlinked_from (objs h) (objs h') →
  omap (λ a, id <$> objs h' !! a) batch = omap (λ a, id <$> objs h !! a) batch.
Proof.
  intros Hrel. induction batch as [|a batch IH]; [done|].
  specialize (Hrel a). cbn [omap list_omap]. fold (@omap list _ loc string).
  rewrite IH.
  destruct (objs h !! a) as [o|], (objs h' !! a) as [o'|]; try done.
  destruct Hrel as (Hid & _). simpl. by rewrite Hid.
Qed.

Lemma unregister_unfold batch s :
  unregister batch s =
    (mkStore
       (forEach (remove_action (actions (current s)))
          (omap (λ a, id <$> objs (heap s) !! a) batch) (heap s)).1
       (mkState (searchQuery (current s)) (currentRootActionId (current s))
          (visualState (current s)) (actions (current s))),
     Ok tt).
Proof.
  unfold unregister, setState, unregister_updater. eff_unfold.
  pose proof (remove_all_returns (actions (current s))
                (omap (λ a, id <$> objs (heap s) !! a) batch) (heap s)) as Hok.
  destruct (forEach _ _ (heap s)) as [h' r]. simpl in *. by subst r.
Qed.

(** C7: calling a batch's [unregister] again after a first call changes
    nothing: the store after two calls (or any number of further calls) is
    the store after one, map and children included. *)
Theorem unregister_idempotent (batch : list loc) (s : Store) :
  (unregister batch s).2 = Ok tt ∧
  unregister batch (unregister batch s).1 = ((unregister batch s).1, Ok tt) ∧
  ∀ n, Nat.iter (S n) (λ s', (unregister batch s').1) s = (unregister batch s).1.
Proof.
  assert (Hsecond :
    unregister batch (unregister batch s).1 = ((unregister batch s).1, Ok tt)).
  { rewrite (unregister_unfold batch s). simpl.
    set (t := actions (current s)).
    set (ids := omap (λ a, id <$> objs (heap s) !! a) batch).
    set (h1 := (forEach (remove_action t) ids (heap s)).1).
    rewrite unregister_unfold. simpl. fold t.
    rewrite (batch_ids_unlinked (heap s) h1 batch)
      by apply remove_all_unlinked.
    fold ids. rewrite forEach_fixed; [done|].
    intros x Hx. apply settled_fixed. by apply remove_all_settles. }
  split; [by rewrite unregister_unfold|]. split; [exact Hsecond|].
  intros n. induction n as [|n IH]; [done|].
  change (Nat.iter (S (S n)) (λ s', (unregister batch s').1) s)
    with ((unregister batch (Nat.iter (S n) (λ s', (unregister batch s').1) s)).1).
  by rewrite IH, Hsecond.
Qed.

(** C3, the defect: after "a" and its child "b" are registered in one
    batch, parent first, that batch's [unregister] removes "a" but leaves
    "b" in the committed map: by the time "b" is handled its parent is gone,
    and the [return] that skips the detaching skips the [delete] too.  With
    the child first in the batch, both ids are removed. *)
Theorem unregister_leaves_child :
  let s1 := (registerActions [1; 2] family_store).1 in
  let s2 := (unregister [1; 2] s1).1 in
  let r1 := (registerActions [2; 1] family_store).1 in
  let r2 := (unregister [2; 1] r1).1 in
  tree_of (heap s1) (current s1) !! "a" = Some 1 ∧
  tree_of (heap s1) (current s1) !! "b" = Some 2 ∧
  tree_of (heap s2) (current s2) !! "a" = None ∧
  tree_of (heap s2) (current s2) !! "b" = Some 2 ∧
  tree_of (heap r2) (current r2) !! "a" = None ∧
  tree_of (heap r2) (current r2) !! "b" = None.
Proof. vm_compute. done. Qed.

Lemma remove_action_tree_frame t x h :
  (∀ l, l ≠ t → trees (remove_action t x h).1 !! l = trees h !! l) ∧
  default ∅ (trees (remove_action t x h).1 !! t) ⊆ default ∅ (trees h !! t).
Proof.
  destruct (remove_action_trees t x h) as [->| ->]; [done|]. split.
  - intros l Hl. by rewrite lookup_alter_ne.
  - apply map_subseteq_spec. intros y a.
    rewrite tree_alter_delete. by case_decide.
Qed.

Lemma remove_all_tree_frame t ids h :
  (∀ l, l ≠ t → trees (forEach (remove_action t) ids h).1 !! l = trees h !! l) ∧
  default ∅ (trees (forEach (remove_action t) ids h).1 !! t) ⊆
    default ∅ (trees h !! t).
Proof.
  apply (forEach_invariant
    (λ h', (∀ l, l ≠ t → trees h' !! l = trees h !! l) ∧
           default ∅ (trees h' !! t) ⊆ default ∅ (trees h !! t))); [|done].
  intros x h' [Hother Hsub].
  destruct (remove_action_tree_frame t x h') as [Hother' Hsub']. split.
  - intros l Hl. by rewrite Hother', Hother.
  - by etrans.
Qed.

(** ** Transitions and earlier snapshots *)




(** ** The visual state *)

(** C6: [toggle] commits a snapshot whose visual state is [animatingIn]
    from [hidden] and from [animatingOut], and [animatingOut] from
    [animatingIn] and from [showing]; nothing else changes. *)
Theorem toggle_transitions (s : Store) :
  toggle s =
    (mkStore (heap s)
       (mkState (searchQuery (current s)) (currentRootActionId (current s))
          match visualState (current s) with
          | hidden => animatingIn
          | animatingOut => animatingIn
          | animatingIn => animatingOut
          | showing => animatingOut
          end
          (actions (current s))),
     Ok tt).
Proof. destruct s as [h [q r [] a]]; reflexivity. Qed.

(** * Further properties *)

(** ** The id index built by [reduce] *)

Lemma actionsByKey_snoc h batch a :
  actionsByKey h (batch ++ [a]) =
    match objs h !! a with
    | Some o => <[id o := a]> (actionsByKey h batch)
    | None => actionsByKey h batch
    end.
Proof. unfold actionsByKey. by rewrite foldl_app. Qed.

Lemma actionsByKey_dom h batch k :
  is_Some (actionsByKey h batch !! k) ↔ k ∈ batch_ids h batch.
Proof.
  induction batch as [|a l IH] using rev_ind.
  - unfold actionsByKey, batch_ids. simpl. rewrite lookup_empty.
    split; [by intros [? [=]]|by intros ?%elem_of_nil].
  - rewrite actionsByKey_snoc. unfold batch_ids in *. rewrite omap_app.
    rewrite elem_of_app. simpl.
    destruct (objs h !! a) as [o|]; simpl.
    + rewrite list_elem_of_singleton.
      destruct (decide (id o = k)) as [<-|Hne].
      * rewrite lookup_insert_eq. split; [by right|by eexists].
      * rewrite lookup_insert_ne by done. rewrite IH.
        split; [by left|]. by intros [?|?].
    + rewrite IH. split; [by left|]. by intros [?|?%elem_of_nil].
Qed.



(** ** Construction *)

Lemma batch_ids_elem h batch k :
  k ∈ batch_ids h batch ↔ ∃ a o, a ∈ batch ∧ objs h !! a = Some o ∧ id o = k.
Proof.
  unfold batch_ids. rewrite list_elem_of_omap. split.
  - intros (a & Hin & Hk). destruct (objs h !! a) as [o|] eqn:Ho; [|done].
    injection Hk as <-. by exists a, o.
  - intros (a & o & Hin & Ho & <-). exists a. by rewrite Ho.
Qed.



(** ** Registering *)



(** ** Children without repetitions *)

Lemma children_nodup_alter f pl h :
  (∀ o, NoDup (kids o) → NoDup (kids (f o))) →
  children_nodup h → children_nodup (with_objs (alter f pl) h).
Proof.
  intros Hf Hh l o. unfold with_objs. simpl. rewrite lookup_alter.
  case_decide as E; [subst l|by apply Hh].
  destruct (objs h !! pl) as [po|] eqn:Hpo; simpl; [|done].
  intros [= <-]. apply Hf. by apply (Hh pl).
Qed.

Lemma add_child_nodup x o : NoDup (kids o) → NoDup (kids (add_child x o)).
Proof.
  intros Hnd. unfold add_child, kids at 1. simpl.
  destruct (includes x (kids o)) eqn:Hdup; [done|].
  apply list.NoDup_app. split; [done|]. split; [|apply NoDup_singleton].
  intros y Hy ->%list_elem_of_singleton.
  apply includes_elem in Hy. congruence.
Qed.

Lemma link_action_nodup tree byKey a h :
  children_nodup h → children_nodup (link_action tree byKey a h).1.
Proof.
  intros Hh.
  destruct (link_action_cases tree byKey a h)
    as [[_ ->]|[(p & _ & _ & ->)|(ao & p & pl & _ & _ & _ & ->)]]; try done.
  simpl. apply children_nodup_alter; [|done]. intros o. apply add_child_nodup.
Qed.

Lemma remove_action_nodup t x h :
  children_nodup h → children_nodup (remove_action t x h).1.
Proof.
  intros Hh.
  destruct (remove_action_cases t x h)
    as [(p & _ & _ & ->)|[(p & pl & k & _ & Hk & ->)|[_ ->]]]; try done.
  apply parent_children_Some in Hk as (_ & o & Ho & Hc).
  intros l o'. simpl. rewrite lookup_alter.
  case_decide as E; [subst l|by apply Hh].
  rewrite Ho. simpl. intros [= <-]. unfold kids. simpl.
  apply list.NoDup_filter. specialize (Hh pl o Ho). unfold kids in Hh.
  by rewrite Hc in Hh.
Qed.

(** When no children sequence of the heap lists an id twice, none does
    after [registerActions] (whether it commits or throws) or after
    [unregister]. *)
Theorem children_nodup_preserved (batch : list loc) (s : Store) :
  children_nodup (heap s) →
  children_nodup (heap (registerActions batch s).1) ∧
  children_nodup (heap (unregister batch s).1).
Proof.
  intros Hh. split.
  - rewrite registerActions_unfold. simpl.
    pose proof (forEach_invariant children_nodup
                  (link_action (tree_of (heap s) (current s))
                     (actionsByKey (heap s) batch)) batch (heap s)
                  (λ a h', link_action_nodup _ _ a h') Hh) as Hinv.
    by destruct (forEach _ batch (heap s)) as [h' [[]|e]].
  - rewrite unregister_unfold. simpl.
    apply (forEach_invariant children_nodup); [|done].
    intros x h'. apply remove_action_nodup.
Qed.

Lemma children_nodup_preserved_witness :
  children_nodup (heap (registerActions [1; 2] family_store).1) ∧
  children_nodup (heap (unregister [1; 2] family_store).1).
Proof.
  apply (children_nodup_preserved [1; 2] family_store).
  intros l o Ho. unfold family_store in Ho. simpl in Ho.
  destruct (decide (l = 1)) as [->|H1].
  { vm_compute in Ho. injection Ho as <-. apply NoDup_nil_2. }
  destruct (decide (l = 2)) as [->|H2].
  { vm_compute in Ho. injection Ho as <-. apply NoDup_nil_2. }
  rewrite lookup_insert_ne, lookup_insert_ne, lookup_empty in Ho by done.
  discriminate Ho.
Defined.

(** ** What [unregister] leaves alone *)

Lemma forEach_invariant_elem {S A} (I : S → Prop) (f : A → Eff S unit)
    (l : list A) (s : S) :
  (∀ x s', x ∈ l → I s' → I (f x s').1) → I s → I (forEach f l s).1.
Proof.
  revert s. induction l as [|x l IH]; intros s Hf Hs; simpl; [done|].
  unfold bind. pose proof (Hf x s (list_elem_of_here _ _) Hs) as Hx.
  destruct (f x s) as [s' [[]|e]]; simpl in *; [|done].
  apply IH; [|done]. intros y s'' Hy. apply Hf. by right.
Qed.

Lemma remove_action_tree_other t x h y :
  x ≠ y →
  default ∅ (trees (remove_action t x h).1 !! t) !! y =
    default ∅ (trees h !! t) !! y.
Proof.
  intros Hne. destruct (remove_action_trees t x h) as [->| ->]; [done|].
  by rewrite tree_alter_delete, decide_False.
Qed.

Lemma remove_action_kids_other t x h l o y :
  objs h !! l = Some o →
  y ≠ x →
  y ∈ kids o →
  ∃ o', objs (remove_action t x h).1 !! l = Some o' ∧ y ∈ kids o'.
Proof.
  intros Ho Hne Hy.
  destruct (remove_action_cases t x h)
    as [(p & _ & _ & ->)|[(p & pl & k & _ & Hk & ->)|[_ ->]]]; simpl; eauto.
  apply parent_children_Some in Hk as (_ & po & Hpo & Hc).
  rewrite lookup_alter. case_decide as E; [subst l|by eauto].
  rewrite Ho. simpl. eexists. split; [done|].
  assert (po = o) as -> by congruence.
  unfold kids in *. simpl. rewrite Hc in Hy. simpl in Hy.
  apply list_elem_of_filter. by split.
Qed.

Lemma remove_all_tree_other t ids h k :
  k ∉ ids →
  default ∅ (trees (forEach (remove_action t) ids h).1 !! t) !! k =
    default ∅ (trees h !! t) !! k.
Proof.
  intros Hk.
  apply (forEach_invariant_elem
           (λ h', default ∅ (trees h' !! t) !! k =
                  default ∅ (trees h !! t) !! k)); [|done].
  intros x h' Hx <-. apply remove_action_tree_other. by intros ->.
Qed.

(** [unregister] touches only the ids of its batch: every other entry of
    the map is as before, and every other id stays in the children
    sequences it was in. *)
Theorem unregister_only_batch_ids (batch : list loc) (s : Store) :
  let s' := (unregister batch s).1 in
  (∀ k, k ∉ batch_ids (heap s) batch →
        tree_of (heap s') (current s') !! k =
          tree_of (heap s) (current s) !! k) ∧
  (∀ l o y,
     objs (heap s) !! l = Some o →
     y ∈ kids o →
     y ∉ batch_ids (heap s) batch →
     ∃ o', objs (heap s') !! l = Some o' ∧ y ∈ kids o').
Proof.
  intros s'. unfold s'. rewrite unregister_unfold. simpl.
  fold (batch_ids (heap s) batch). unfold tree_of. simpl.
  set (t := actions (current s)). set (ids := batch_ids (heap s) batch).
  split.
  - intros k Hk. by apply remove_all_tree_other.
  - intros l o y Ho Hy Hids.
    apply (forEach_invariant_elem
             (λ h', ∃ o', objs h' !! l = Some o' ∧ y ∈ kids o'));
      [|by exists o].
    intros x h' Hx (o' & Ho' & Hy').
    eapply remove_action_kids_other; [done| |done]. by intros ->.
Qed.

Lemma unregister_only_batch_ids_witness :
  tree_of (heap (unregister [2] committed_store).1)
          (current (unregister [2] committed_store).1) !! "a" = Some 1.
Proof.
  destruct (unregister_only_batch_ids [2] committed_store) as [Hmap _].
  rewrite Hmap; [vm_compute; reflexivity|].
  vm_compute. intros H%list_elem_of_In. simpl in H.
  destruct H as [H|[]]. discriminate H.
Defined.

(** ** What [unregister] removes *)

Lemma remove_all_gone t ids h k :
  default ∅ (trees h !! t) !! k = None →
  default ∅ (trees (forEach (remove_action t) ids h).1 !! t) !! k = None.
Proof.
  intros Hk. destruct (remove_all_tree_frame t ids h) as [_ Hsub].
  by eapply lookup_weaken_None.
Qed.

Lemma remove_all_root t ids h k :
  k ∈ ids →
  entry_parent h t k = None →
  default ∅ (trees (forEach (remove_action t) ids h).1 !! t) !! k = None.
Proof.
  revert h. induction ids as [|x ids IH]; intros h Hin Hroot.
  { by apply elem_of_nil in Hin. }
  simpl. unfold bind.
  pose proof (remove_action_returns t x h) as Hok.
  pose proof (remove_action_unlinked t x h) as Hrel.
  destruct (decide (x = k)) as [->|Hne].
  - destruct (remove_action_cases t k h)
      as [(p & Hp & _)|[(p & pl & cs & Hp & _)|[_ Hstep]]]; [congruence..|].
    rewrite Hstep. apply remove_all_gone. simpl.
    by rewrite tree_alter_delete, decide_True.
  - pose proof (remove_action_tree_other t x h k Hne) as Hsame.
    destruct (remove_action t x h) as [h1 r]. simpl in *. subst r.
    apply elem_of_cons in Hin as [->|Hin]; [done|].
    apply IH; [done|]. by rewrite (entry_parent_unlinked h h1 t k Hrel Hsame).
Qed.

Lemma remove_all_child t ids h k p pl cs :
  k ∈ ids →
  entry_parent h t k = Some p →
  parent_children h t p = Some (pl, cs) →
  p ∉ ids →
  default ∅ (trees (forEach (remove_action t) ids h).1 !! t) !! k = None ∧
  ∃ po', objs (forEach (remove_action t) ids h).1 !! pl = Some po' ∧
         k ∉ kids po'.
Proof.
  revert h cs. induction ids as [|x ids IH]; intros h cs Hin Hp Hk Hout.
  { by apply elem_of_nil in Hin. }
  simpl. unfold bind.
  pose proof (remove_action_returns t x h) as Hok.
  pose proof (remove_action_unlinked t x h) as Hrel.
  destruct (decide (x = k)) as [->|Hne].
  - destruct (remove_action_cases t k h)
      as [(q & Hq & Hnone & _)|[(q & ql & qs & Hq & Hqs & Hstep)|[Hq _]]];
      [congruence| |congruence].
    assert (q = p) as -> by congruence.
    assert (ql = pl ∧ qs = cs) as [-> ->] by (split; congruence).
    rewrite Hstep. clear Hstep.
    set (h1 := mkHeap _ _).
    split.
    { apply remove_all_gone. unfold h1. simpl.
      by rewrite tree_alter_delete, decide_True. }
    apply parent_children_Some in Hk as (_ & po & Hpo & Hc).
    assert (Hpo1 : objs h1 !! pl =
                   Some (set_children (Some (filter (λ y, y ≠ k) cs)) po)).
    { unfold h1. simpl. by rewrite lookup_alter, decide_True, Hpo. }
    destruct (objs_rel_lookup _ _ _ _ _ (remove_all_unlinked t ids h1) Hpo1)
      as (po' & Hpo' & _ & _ & _ & Hsub & _).
    exists po'. split; [done|]. intros Hin'.
    apply (λ H, elem_of_sublist _ _ _ H Hsub) in Hin'. unfold kids in Hin'.
    simpl in Hin'. apply list_elem_of_filter in Hin' as [Hk' _]. done.
  - pose proof (remove_action_tree_other t x h k Hne) as Hsame.
    assert (Hxp : x ≠ p) by (intros ->; apply Hout; by left).
    pose proof (remove_action_tree_other t x h p Hxp) as Hsamep.
    destruct (remove_action t x h) as [h1 r]. simpl in *. subst r.
    apply elem_of_cons in Hin as [->|Hin]; [done|].
    apply parent_children_Some in Hk as (Htp & po & Hpo & Hc).
    destruct (objs_rel_lookup _ _ _ _ _ Hrel Hpo)
      as (po1 & Hpo1 & _ & _ & _ & _ & Hsome).
    destruct (proj1 Hsome) as [cs1 Hc1]; [by eexists|].
    apply (IH h1 cs1); [done| | |].
    + by rewrite (entry_parent_unlinked h h1 t k Hrel Hsame).
    + apply parent_children_Some. rewrite Hsamep. eauto.
    + intros ?. apply Hout. by right.
Qed.

(** An id of the batch whose entry in the committed map has no parent is
    gone from the map after [unregister], whichever batch put the entry
    there. *)
Theorem unregister_removes_root (batch : list loc) (s : Store) (k : string) :
  k ∈ batch_ids (heap s) batch →
  entry_parent (heap s) (actions (current s)) k = None →
  tree_of (heap (unregister batch s).1) (current (unregister batch s).1) !! k
    = None.
Proof.
  intros Hin Hroot. rewrite unregister_unfold. unfold tree_of. simpl.
  by apply remove_all_root.
Qed.

Lemma unregister_removes_root_witness :
  tree_of (heap (unregister [4] committed_store).1)
          (current (unregister [4] committed_store).1) !! "a" = None.
Proof.
  apply (unregister_removes_root [4] committed_store "a").
  - vm_compute. apply list_elem_of_In. simpl. auto.
  - vm_compute. reflexivity.
Defined.

(** An id of the batch whose entry has a parent outside the batch, the
    parent being in the map with a children sequence, is gone after
    [unregister] from the map and from that parent's children. *)
Theorem unregister_detaches_child
    (batch : list loc) (s : Store) (k p : string) (pl : loc)
    (cs : list string) :
  k ∈ batch_ids (heap s) batch →
  entry_parent (heap s) (actions (current s)) k = Some p →
  parent_children (heap s) (actions (current s)) p = Some (pl, cs) →
  p ∉ batch_ids (heap s) batch →
  let s' := (unregister batch s).1 in
  tree_of (heap s') (current s') !! k = None ∧
  tree_of (heap s') (current s') !! p = Some pl ∧
  ∃ po', objs (heap s') !! pl = Some po' ∧ k ∉ kids po'.
Proof.
  intros Hin Hp Hk Hout s'. unfold s'. rewrite unregister_unfold.
  unfold tree_of. simpl.
  destruct (remove_all_child (actions (current s)) (batch_ids (heap s) batch)
              (heap s) k p pl cs Hin Hp Hk Hout) as [Hgone Hkids].
  split; [exact Hgone|]. split; [|exact Hkids].
  rewrite remove_all_tree_other by done.
  by apply parent_children_Some in Hk as [? _].
Qed.

Lemma unregister_detaches_child_witness :
  let s1 := (registerActions [2] committed_store).1 in
  let s2 := (unregister [2] s1).1 in
  tree_of (heap s2) (current s2) !! "b" = None ∧
  tree_of (heap s2) (current s2) !! "a" = Some 1 ∧
  ∃ po', objs (heap s2) !! 1 = Some po' ∧ "b" ∉ kids po'.
Proof.
  apply (unregister_detaches_child [2] (registerActions [2] committed_store).1
           "b" "a" 1 ["b"]).
  - vm_compute. apply list_elem_of_In. simpl. auto.
  - vm_compute. reflexivity.
  - vm_compute. reflexivity.
  - vm_compute. intros H%list_elem_of_In. simpl in H.
    destruct H as [H|[]]. discriminate H.
Defined.

(** ** The state container *)

(** After [toggle] the visual state is [animatingIn] or [animatingOut],
    never [showing] or [hidden]; from then on [toggle] alternates between
    the two, so two more calls give the same store; and [toggle] is
    [setVisualState] with the toggling function as updater. *)
Theorem toggle_alternates (s : Store) :
  let s1 := (toggle s).1 in
  (visualState (current s1) = animatingIn ∨
   visualState (current s1) = animatingOut) ∧
  visualState (current (toggle s1).1) ≠ visualState (current s1) ∧
  (toggle (toggle s1).1).1 = s1 ∧
  toggle s = setVisualState (VsFunction toggle_visualState) s.
Proof.
  destruct s as [h [q r [] a]]; repeat split; by (left + right + idtac).
Qed.


(** The options are merged one level deep: without host options the
    animations are the defaults (200 and 100); a host [animations] entry
    replaces the default entry whole, whatever fields it has; every other
    host entry is passed through, and nothing else is added. *)
Theorem optionsRef_shallow_merge
    (props_options : option (gmap string JsValue)) (k : string) :
  optionsRef None !! "animations" = Some default_animations ∧
  (∀ o v, props_options = Some o → o !! "animations" = Some v →
          optionsRef props_options !! "animations" = Some v) ∧
  (∀ o, props_options = Some o → o !! "animations" = None →
        optionsRef props_options !! "animations" = Some default_animations) ∧
  (k ≠ "animations" →
   optionsRef props_options !! k = default ∅ props_options !! k).
Proof.
  unfold optionsRef. split; [done|]. split; [|split].
  - intros o v -> Hv. simpl. by apply lookup_union_Some_l.
  - intros o -> Hv. simpl. by rewrite lookup_union_r.
  - intros Hk. rewrite lookup_union, lookup_singleton_ne by done.
    by destruct (default ∅ props_options !! k).
Qed.

Lemma optionsRef_shallow_merge_witness :
  optionsRef (Some {["animations" := JObj [("enterMs", JNum 50)]]})
    !! "animations" = Some (JObj [("enterMs", JNum 50)]).
Proof.
  destruct (optionsRef_shallow_merge
              (Some {["animations" := JObj [("enterMs", JNum 50)]]}) "x")
    as (_ & Hhost & _).
  by apply (Hhost {["animations" := JObj [("enterMs", JNum 50)]]}).
Defined.

(** ** The publisher *)

Lemma collect_shape w l P :
  ∃ objs' tr,
    collect w l P = (mkPublisher (subscribers P) objs' (trace P ++ tr), Ok tt) ∧
    (objs' = subscriberObjs P ∨
     ∃ self v, subscriberObjs P !! l = Some self ∧
               collector self w = Ok v ∧
               objs' = <[l := set_collected v self]> (subscriberObjs P)) ∧
    Forall (λ ev, is_delivery l ev = true ∨ is_warning ev) tr.
Proof.
  assert (Hl : ∀ v, is_delivery l (OnChange l v) = true).
  { intros v. simpl. by apply bool_decide_eq_true. }
  destruct (subscriberObjs P !! l) as [self|] eqn:H.
  - destruct (collector self w) as [v|e] eqn:Hc.
    + destruct (deepEqual v (collected self)) eqn:Heq.
      * exists (subscriberObjs P), []. rewrite app_nil_r.
        erewrite collect_unchanged by done.
        split; [by destruct P|]. split; [by left|done].
      * destruct (onChange self) as [f|] eqn:Hcb.
        -- exists (<[l := set_collected v self]> (subscriberObjs P)),
             (deliver l v f).
           erewrite collect_changed by done. split; [done|].
           split; [right; by exists self, v|].
           unfold deliver. destruct (f v).
           ++ apply Forall_cons_2; [by left|done].
           ++ apply Forall_cons_2; [by left|].
              apply Forall_cons_2; [by right|done].
        -- exists (<[l := set_collected v self]> (subscriberObjs P)), [].
           rewrite app_nil_r. erewrite collect_changed_no_callback by done.
           split; [done|]. split; [right; by exists self, v|done].
    + exists (subscriberObjs P), [ConsoleWarn e].
      erewrite collect_selector_throws by done.
      split; [done|]. split; [by left|]. apply Forall_cons_2; [by right|done].
  - exists (subscriberObjs P), []. rewrite app_nil_r, collect_dangling by done.
    split; [by destruct P|]. split; [by left|done].
Qed.

(** [collect] on one subscriber leaves every other subscriber object as it
    is and calls nobody else's [onChange]. *)
Lemma collect_other w l this P :
  l ≠ this →
  subscriberObjs (collect w l P).1 !! this = subscriberObjs P !! this ∧
  List.filter (is_delivery this) (trace (collect w l P).1) =
    List.filter (is_delivery this) (trace P).
Proof.
  intros Hne. destruct (collect_shape w l P) as (objs' & tr & -> & Hobjs & Htr).
  simpl. split.
  - destruct Hobjs as [->|(self & v & _ & _ & ->)]; [done|].
    by rewrite lookup_insert_ne.
  - rewrite List.filter_app.
    assert (List.filter (is_delivery this) tr = []) as ->;
      [|by rewrite app_nil_r].
    induction Htr as [|ev tr Hev _ IH]; [done|]. simpl. rewrite IH.
    destruct ev as [l' u|e]; [|done]. simpl.
    destruct Hev as [Hl'%bool_decide_eq_true|[]]. subst l'.
    by rewrite bool_decide_eq_false_2.
Qed.

(** [collect] keeps the selector and the callback of every subscriber. *)
Lemma collect_keeps_callbacks w l this P self :
  subscriberObjs P !! this = Some self →
  ∃ self', subscriberObjs (collect w l P).1 !! this = Some self' ∧
           collector self' = collector self ∧ onChange self' = onChange self.
Proof.
  intros H. destruct (collect_shape w l P) as (objs' & tr & -> & Hobjs & _).
  simpl. destruct Hobjs as [->|(self0 & v & Hl & _ & ->)]; [by exists self|].
  destruct (decide (l = this)) as [->|Hne].
  - rewrite lookup_insert_eq. assert (self0 = self) as -> by congruence.
    by eexists.
  - rewrite lookup_insert_ne by done. by exists self.
Qed.

Lemma collect_all_not_listed w ls this P :
  this ∉ ls →
  subscriberObjs (foldl (λ P' l, (collect w l P').1) P ls) !! this =
    subscriberObjs P !! this ∧
  List.filter (is_delivery this)
    (trace (foldl (λ P' l, (collect w l P').1) P ls)) =
    List.filter (is_delivery this) (trace P).
Proof.
  revert P. induction ls as [|l ls IH]; intros P Hout; simpl; [done|].
  apply not_elem_of_cons in Hout as [Hne Hout].
  destruct (collect_other w l this P) as [H1 H2]; [done|].
  destruct (IH (collect w l P).1 Hout) as [H3 H4].
  split; congruence.
Qed.

Lemma notify_fold w P :
  notify w P = (foldl (λ P' l, (collect w l P').1) P (subscribers P), Ok tt).
Proof.
  unfold notify, bind, gets. apply forEach_total. intros; apply collect_returns.
Qed.

Lemma collect_all_subscribers w ls P :
  subscribers (foldl (λ P' l, (collect w l P').1) P ls) = subscribers P.
Proof.
  revert P. induction ls as [|l ls IH]; intros P; simpl; [done|].
  by rewrite IH, collect_subscribers.
Qed.

Lemma collect_all_live w ls P l :
  is_Some (subscriberObjs P !! l) →
  is_Some (subscriberObjs (foldl (λ P' l', (collect w l' P').1) P ls) !! l).
Proof.
  revert P. induction ls as [|l' ls IH]; intros P [self H]; simpl; [by eexists|].
  apply IH. destruct (collect_keeps_callbacks w l' l P self H) as (? & ? & _).
  by eexists.
Qed.

Lemma filter_absent (x : loc) (l : list loc) :
  x ∉ l → filter (λ y, y ≠ x) l = l.
Proof.
  induction l as [|z l IH]; intros Hx; [done|].
  apply not_elem_of_cons in Hx as [Hz Hx].
  rewrite filter_cons, decide_True by (by intros ->). f_equal. by apply IH.
Qed.

Lemma remove_first_NoDup x l :
  NoDup l → remove_first x l = filter (λ y, y ≠ x) l.
Proof.
  induction l as [|y l IH]; intros Hnd; simpl; [done|].
  apply list.NoDup_cons in Hnd as [Hy Hnd]. rewrite filter_cons.
  destruct (decide (x = y)) as [->|Hne].
  - rewrite decide_False by (by intros ?). by rewrite filter_absent.
  - rewrite decide_True by (by intros ->). f_equal. by apply IH.
Qed.

Lemma remove_first_absent x l : x ∉ l → remove_first x l = l.
Proof.
  induction l as [|y l IH]; intros Hx; simpl; [done|].
  apply not_elem_of_cons in Hx as [Hne Hx].
  rewrite decide_False by done. f_equal. by apply IH.
Qed.

(** A new publisher has no subscriber twice and no dead one, and
    [subscribe], [unsubscribe] and [notify] keep it so. *)
Theorem publisher_wf_preserved
    (P : Publisher) (w : Store) (sel : Store → result JsValue)
    (cb : option (JsValue → result unit)) (l : loc) :
  publisher_wf new_Publisher ∧
  (publisher_wf P →
   publisher_wf (subscribe sel cb P).1 ∧
   publisher_wf (unsubscribe l P).1 ∧
   publisher_wf (notify w P).1).
Proof.
  split.
  { split; [constructor|]. by intros x ?%elem_of_nil. }
  intros [Hnd Hlive]. split; [|split].
  - unfold subscribe. eff_unfold.
    set (this := fresh (dom (subscriberObjs P))).
    assert (Hfresh : this ∉ subscribers P).
    { intros Hin%Hlive%elem_of_dom. by apply is_fresh in Hin. }
    split; simpl.
    + apply list.NoDup_app. split; [done|]. split; [|apply NoDup_singleton].
      by intros x Hx ->%list_elem_of_singleton.
    + intros x [Hx| ->%list_elem_of_singleton]%elem_of_app.
      * rewrite lookup_insert_ne by (by intros <-). by apply Hlive.
      * rewrite lookup_insert_eq. by eexists.
  - unfold unsubscribe. eff_unfold. rewrite remove_first_NoDup by done.
    split; simpl.
    + by apply list.NoDup_filter.
    + intros x [_ Hx]%list_elem_of_filter. by apply Hlive.
  - rewrite notify_fold. simpl. split.
    + by rewrite collect_all_subscribers.
    + rewrite collect_all_subscribers. intros x Hx.
      apply collect_all_live. by apply Hlive.
Qed.

Lemma publisher_wf_preserved_witness :
  publisher_wf (notify empty_store throwing_publisher).1.
Proof.
  apply (publisher_wf_preserved throwing_publisher empty_store
           (λ _, Ok JNull) None 0).
  split.
  - unfold throwing_publisher. simpl.
    apply list.NoDup_cons. split; [|apply list.NoDup_cons; split;
                                      [|apply NoDup_singleton]].
    + intros H%list_elem_of_In. simpl in H. by destruct H as [H|[H|[]]].
    + intros H%list_elem_of_In. simpl in H. by destruct H as [H|[]].
  - intros x Hx%list_elem_of_In. simpl in Hx.
    destruct Hx as [<-|[<-|[<-|[]]]]; vm_compute; by eexists.
Defined.

(** [subscribe] calls nothing and leaves the other subscribers as they
    are; the new subscriber, with nothing collected yet, goes to the end of
    the list, so a [notify] collects from it after all earlier ones. *)
Theorem subscribe_appends
    (P : Publisher) (w : Store) (sel : Store → result JsValue)
    (cb : option (JsValue → result unit)) :
  ∃ this P1,
    subscribe sel cb P = (P1, Ok this) ∧
    (this ∉ dom (subscriberObjs P)) ∧
    subscribers P1 = subscribers P ++ [this] ∧
    subscriberObjs P1 !! this = Some (mkSubscriber JUndefined sel cb) ∧
    (∀ l, l ≠ this → subscriberObjs P1 !! l = subscriberObjs P !! l) ∧
    trace P1 = trace P ∧
    notify w P1 =
      collect w this
        (foldl (λ P' l, (collect w l P').1) P1 (subscribers P)).
Proof.
  eexists _, _. split; [unfold subscribe; eff_unfold; reflexivity|]. simpl.
  split; [apply is_fresh|]. split; [done|].
  split; [by rewrite lookup_insert_eq|].
  split; [by intros l Hl; rewrite lookup_insert_ne|]. split; [done|].
  rewrite notify_fold. simpl. rewrite foldl_app. simpl.
  set (Q := foldl _ _ _).
  pose proof (collect_returns w (fresh (dom (subscriberObjs P))) Q) as Hok.
  destruct (collect w _ Q) as [Q' r]. simpl in *. by subst r.
Qed.

(** After [unsubscribe] the subscriber is off the list, the others keep
    their order and their objects, and no [notify] cycle, whatever the
    states, calls its [onChange] again; unsubscribing what is not on the
    list, or unsubscribing twice, changes nothing. *)
Theorem unsubscribe_stops_delivery (P : Publisher) (this : loc) :
  NoDup (subscribers P) →
  let P' := (unsubscribe this P).1 in
  (this ∉ subscribers P') ∧
  subscribers P' = filter (λ l, l ≠ this) (subscribers P) ∧
  subscriberObjs P' = subscriberObjs P ∧
  trace P' = trace P ∧
  (∀ ws : list Store,
     List.filter (is_delivery this)
       (trace (foldl (λ Q w, (notify w Q).1) P' ws)) =
     List.filter (is_delivery this) (trace P)) ∧
  (this ∉ subscribers P → P' = P) ∧
  unsubscribe this P' = (P', Ok tt).
Proof.
  intros Hnd P'.
  assert (Hsubs : subscribers P' = filter (λ l, l ≠ this) (subscribers P)).
  { unfold P', unsubscribe. eff_unfold. by apply remove_first_NoDup. }
  assert (Hout : this ∉ subscribers P').
  { rewrite Hsubs. by intros [? _]%list_elem_of_filter. }
  split; [done|]. split; [done|]. split; [done|]. split; [done|].
  split; [|split].
  - intros ws.
    assert (Hgen : ∀ Q, this ∉ subscribers Q →
      List.filter (is_delivery this)
        (trace (foldl (λ Q w, (notify w Q).1) Q ws)) =
      List.filter (is_delivery this) (trace Q)).
    { induction ws as [|w ws IH]; intros Q HQ; simpl; [done|].
      rewrite IH.
      - rewrite notify_fold. simpl. by apply collect_all_not_listed.
      - rewrite notify_fold. simpl. by rewrite collect_all_subscribers. }
    by rewrite Hgen.
  - intros Habs. unfold P', unsubscribe. eff_unfold.
    rewrite remove_first_absent by done. by destruct P.
  - unfold unsubscribe at 1. eff_unfold.
    rewrite remove_first_absent by done. reflexivity.
Qed.

Lemma unsubscribe_stops_delivery_witness :
  List.filter (is_delivery 1)
    (trace (notify empty_store (unsubscribe 1 throwing_publisher).1).1) = [].
Proof.
  destruct (unsubscribe_stops_delivery throwing_publisher 1)
    as (_ & _ & _ & _ & Hsilent & _).
  - unfold throwing_publisher. simpl.
    apply list.NoDup_cons. split; [|apply list.NoDup_cons; split;
                                      [|apply NoDup_singleton]].
    + intros H%list_elem_of_In. simpl in H. by destruct H as [H|[H|[]]].
    + intros H%list_elem_of_In. simpl in H. by destruct H as [H|[]].
  - exact (Hsilent [empty_store]).
Defined.








(** ** Registering and unregistering root actions *)

Lemma remove_all_roots_objs t ids h :
  (∀ k, k ∈ ids → entry_parent h t k = None) →
  objs (forEach (remove_action t) ids h).1 = objs h.
Proof.
  revert h. induction ids as [|x ids IH]; intros h Hroots; simpl; [done|].
  unfold bind.
  destruct (remove_action_cases t x h)
    as [(p & Hp & _)|[(p & pl & cs & Hp & _)|[_ Hstep]]].
  - rewrite Hroots in Hp by (by left). done.
  - rewrite Hroots in Hp by (by left). done.
  - rewrite Hstep. rewrite IH; [done|].
    intros k Hk. specialize (Hroots k (list_elem_of_further _ _ _ Hk)).
    unfold entry_parent in *. simpl. rewrite tree_alter_delete.
    by case_decide.
Qed.

(** Registering a batch of actions without parents whose ids are not in
    the committed map, and then calling the batch's [unregister], gives back
    the entries the map had and leaves every action object as it was. *)
Theorem register_unregister_roots (batch : list loc) (s : Store) :
  (∀ a, a ∈ batch → parent_ref (heap s) a = None) →
  (∀ k, k ∈ batch_ids (heap s) batch →
        tree_of (heap s) (current s) !! k = None) →
  let s1 := (registerActions batch s).1 in
  let s2 := (unregister batch s1).1 in
  (registerActions batch s).2 = Ok tt ∧
  objs (heap s2) = objs (heap s) ∧
  tree_of (heap s2) (current s2) = tree_of (heap s) (current s).
Proof.
  intros Hroots Hfresh.
  set (tree := tree_of (heap s) (current s)) in *.
  set (byKey := actionsByKey (heap s) batch).
  assert (Hlink : forEach (link_action tree byKey) batch (heap s) =
                  (heap s, Ok tt)).
  { apply forEach_fixed. intros a Ha. apply link_action_no_parent. auto. }
  rewrite registerActions_unfold. simpl. fold tree byKey. rewrite Hlink.
  simpl. split; [done|].
  set (t := fresh (dom (trees (heap s)))).
  rewrite unregister_unfold. simpl.
  fold (batch_ids (heap s) batch).
  set (ids := batch_ids (heap s) batch) in *.
  set (h1 := with_trees (insert t (tree ∪ byKey)) (heap s)).
  assert (Htree1 : default ∅ (trees h1 !! t) = tree ∪ byKey).
  { unfold h1. simpl. by rewrite lookup_insert_eq. }
  assert (Hentry : ∀ k, k ∈ ids → entry_parent h1 t k = None).
  { intros k Hk. unfold entry_parent. rewrite Htree1.
    rewrite lookup_union_r by auto.
    destruct (byKey !! k) as [a|] eqn:Ha; [|done]. simpl.
    apply actionsByKey_lookup in Ha as (Hin & o & Ho & _).
    specialize (Hroots a Hin). unfold parent_ref in Hroots.
    change (objs h1) with (objs (heap s)). by rewrite Ho in Hroots |- *. }
  split.
  - by rewrite remove_all_roots_objs.
  - unfold tree_of at 1. simpl. apply map_eq. intros k.
    destruct (decide (k ∈ ids)) as [Hk|Hk].
    + rewrite remove_all_root by auto. symmetry. by apply Hfresh.
    + rewrite remove_all_tree_other by done. rewrite Htree1.
      rewrite lookup_union_l; [done|].
      apply eq_None_not_Some. intros Hsome. apply Hk.
      by apply actionsByKey_dom.
Qed.

Lemma register_unregister_roots_witness :
  let s1 := (registerActions [1] family_store).1 in
  let s2 := (unregister [1] s1).1 in
  (registerActions [1] family_store).2 = Ok tt ∧
  objs (heap s2) = objs (heap family_store) ∧
  tree_of (heap s2) (current s2) =
    tree_of (heap family_store) (current family_store).
Proof.
  apply (register_unregister_roots [1] family_store).
  - intros a ->%list_elem_of_singleton. vm_compute. reflexivity.
  - intros k Hk. vm_compute. reflexivity.
Defined.
